(** * TaskConf presets: resolution, diff, compose, naming and prefix scoping

    A shallow embedding of [src/config/Preset.py].  Python objects are
    rendered as values, in-place mutation as explicit state passing, and
    exceptions as an outcome type; [clone], whose point is what it shares,
    is modelled a second time over a heap of objects ([ObjectStore]).
    The typed key-value store ([ConfigurationBlock]) is not part of the
    sources at hand: its typed getters are an interface ([TypedStore])
    the development is parametric in, and its [flatten] is modelled from
    the specification. *)

From Stdlib Require Import ZArith Ascii String List Bool Lia.
From stdpp Require Import base option list strings pretty gmap.

Set Default Proof Using "Type".
Set Warnings "-register-all,-clear-no-such-hyp".

(** ** Exceptions and outcomes *)

(** The exceptions the code can meet.  [NotFoundError] is the store's own
    exception class, the only one [Preset] catches; [StoreError] stands for
    whatever else the store raises (a failed type conversion). *)
Inductive exn :=
| NotFoundError (msg : string)
| StoreError (msg : string)
| AttributeError
| TypeError
| IndexError
| KeyError (key : string).

Inductive outcome (A : Type) :=
| Return (a : A)
| Raise (e : exn).
Arguments Return {A} a.
Arguments Raise {A} e.

(** Sequencing: an exception ends the computation ([x ← m; k]). *)
#[export] Instance outcome_bind : MBind outcome := λ A B k m,
  match m with
  | Return a => k a
  | Raise e => Raise e
  end.

Definition is_not_found {A} (r : outcome A) : bool :=
  match r with
  | Raise (NotFoundError _) => true
  | _ => false
  end.

(** ** Python values *)

(** The leaves of a configuration tree are the Python values that are not
    mappings (numbers, strings, booleans, [None], lists).  The code touches
    them through [==], [str] and [len] only ([len] of a number is a
    [TypeError], [None] here). *)
Class PyValue (V : Type) := {
  py_eq : V → V → bool;
  py_str : V → string;
  py_len : V → option nat
}.

(** A nested configuration: a leaf, or a dict.  A Python dict keeps its
    keys in insertion order, so it is an association list here. *)
Inductive tree (V : Type) :=
| Leaf (v : V)
| Dict (items : list (string * tree V)).
Arguments Leaf {V} v.
Arguments Dict {V} items.

Abbreviation dict V := (list (string * tree V)).

Section DictOps.
Context {A : Type}.

(** [k in d] and [d[k]] *)
Fixpoint dict_get (k : string) (d : list (string * A)) : option A :=
  match d with
  | [] => None
  | (k', a) :: d' => if decide (k = k') then Some a else dict_get k d'
  end.

Definition dict_mem (k : string) (d : list (string * A)) : bool :=
  match dict_get k d with Some _ => true | None => false end.

(** [d[k] = a]: an existing key keeps its position. *)
Fixpoint dict_set (k : string) (a : A) (d : list (string * A)) : list (string * A) :=
  match d with
  | [] => [(k, a)]
  | (k', a') :: d' =>
      if decide (k = k') then (k, a) :: d' else (k', a') :: dict_set k a d'
  end.

(** [del d[k]] on a key that is present. *)
Fixpoint dict_del (k : string) (d : list (string * A)) : list (string * A) :=
  match d with
  | [] => []
  | (k', a') :: d' =>
      if decide (k = k') then d' else (k', a') :: dict_del k d'
  end.

Definition dict_keys (d : list (string * A)) : list string := d.*1.
End DictOps.

(** ** The typed store (external collaborator) *)

Inductive value_type := TInt | TString | TFloat | TBool | TList.

(** [ConfigurationBlock(config)] wraps the nested tree it is given. *)
Record ConfigurationBlock (V : Type) := mkConfigurationBlock {
  cb_config : tree V
}.
Arguments mkConfigurationBlock {V} cb_config.
Arguments cb_config {V} c.

(** The typed getters [get_int], [get_string], [get_float], [get_bool] and
    [get_list] of the store, indexed by the type tag that the source turns
    into a method name ([getattr(self.config, 'get_' + value_type)]).  They
    raise [NotFoundError] when the name is absent and something else when
    the stored value cannot be converted. *)
Class TypedStore (V : Type) := {
  cb_get : value_type → ConfigurationBlock V → string → outcome V
}.

(** ** Presets *)

Definition Logger := nat.

(** What the loggers have received so far: [logger.log(message)] appends. *)
Definition Sink := list (Logger * string).

(** The raw record of a preset ([data]): [name], [uuid], [creation_time]
    and [abstract] are optional keys, and so is [config] as far as Python
    is concerned (a missing one is a [KeyError]). *)
Record RawData (V : Type) := mkRawData {
  d_name : option string;
  d_uuid : option string;
  d_creation_time : option Z;
  d_config : option (tree V);
  d_abstract : option bool
}.
Arguments mkRawData {V}.
Arguments d_name {V} r.
Arguments d_uuid {V} r.
Arguments d_creation_time {V} r.
Arguments d_config {V} r.
Arguments d_abstract {V} r.

Inductive Preset (V : Type) := mkPreset {
  prefix : string;
  base_preset : option (Preset V);
  file : option string;
  try_number : Z;
  _printed_settings : gset string;
  logger : option Logger;
  data : RawData V;
  name : string;
  uuid : string;
  creation_time : Z;
  config : option (ConfigurationBlock V);
  abstract : bool
}.
Arguments mkPreset {V}.
Arguments prefix {V} p.
Arguments base_preset {V} p.
Arguments file {V} p.
Arguments try_number {V} p.
Arguments _printed_settings {V} p.
Arguments logger {V} p.
Arguments data {V} p.
Arguments name {V} p.
Arguments uuid {V} p.
Arguments creation_time {V} p.
Arguments config {V} p.
Arguments abstract {V} p.

(** Field assignments, [self.f = x]. *)
Definition set_printed_settings {V} (s : gset string) (p : Preset V) : Preset V :=
  mkPreset (prefix p) (base_preset p) (file p) (try_number p) s (logger p)
    (data p) (name p) (uuid p) (creation_time p) (config p) (abstract p).

Definition set_logger_field {V} (l : option Logger) (p : Preset V) : Preset V :=
  mkPreset (prefix p) (base_preset p) (file p) (try_number p)
    (_printed_settings p) l (data p) (name p) (uuid p) (creation_time p)
    (config p) (abstract p).

Definition set_prefix {V} (s : string) (p : Preset V) : Preset V :=
  mkPreset s (base_preset p) (file p) (try_number p) (_printed_settings p)
    (logger p) (data p) (name p) (uuid p) (creation_time p) (config p)
    (abstract p).

Section Resolution.
Context {V : Type} `{!PyValue V, !TypedStore V}.

(** [getattr(self.config, 'get_' + value_type)(name)]; a preset made
    without data has [config = None], which has no getters. *)
Definition config_get (self : Preset V) (name : string) (value_type : value_type)
  : outcome V :=
  match config self with
  | Some c => cb_get value_type c name
  | None => Raise AttributeError
  end.

(** [Preset._get_value]: the own store first, the base preset on a
    [NotFoundError], the error itself at a root. *)
Fixpoint _get_value (self : Preset V) (name : string) (value_type : value_type)
  : outcome V :=
  match config_get self name value_type with
  | Raise (NotFoundError msg) =>
      match base_preset self with
      | None => Raise (NotFoundError msg)
      | Some base => _get_value base name value_type
      end
  | r => r
  end.

Definition log_line (name : string) (value : V) : string :=
  "Using " +:+ name +:+ " = " +:+ py_str value.

(** [Preset._get_value_with_fallback]: returns the outcome, the preset
    with its updated dedup set, and the sink. *)
Definition _get_value_with_fallback (self : Preset V) (name : string)
    (fallback : option string) (value_type : value_type) (out : Sink)
  : outcome V * Preset V * Sink :=
  let qname := prefix self +:+ name in
  let r :=
    match _get_value self qname value_type with
    | Raise (NotFoundError msg) =>
        match fallback with
        | Some fb => _get_value self (prefix self +:+ fb) value_type
        | None => Raise (NotFoundError msg)
        end
    | r => r
    end in
  match r with
  | Return value =>
      match logger self with
      | Some lg =>
          if decide (qname ∈ _printed_settings self) then (Return value, self, out)
          else
            (Return value,
             set_printed_settings ({[qname]} ∪ _printed_settings self) self,
             out ++ [(lg, log_line qname value)])
      | None => (Return value, self, out)
      end
  | Raise e => (Raise e, self, out)
  end.
End Resolution.

(** ** Strings as Python uses them here *)

Definition slash : ascii := "/"%char.

(** [s.split('/')] *)
Fixpoint split_slash (s : string) : list string :=
  match s with
  | EmptyString => [EmptyString]
  | String a s' =>
      if decide (a = slash) then EmptyString :: split_slash s'
      else match split_slash s' with
           | h :: t => String a h :: t
           | [] => [String a EmptyString]
           end
  end.

(** ['/'.join(keys)] *)
Fixpoint join_slash (keys : list string) : string :=
  match keys with
  | [] => ""
  | [k] => k
  | k :: ks => k +:+ "/" +:+ join_slash ks
  end.

(** [s.endswith(suffix)] *)
Definition endswith (s suffix : string) : bool :=
  (String.length suffix <=? String.length s)%nat &&
  String.eqb
    (String.substring (String.length s - String.length suffix)
       (String.length suffix) s)
    suffix.

(** [s[:-n]] for a string of at least [n] characters *)
Definition drop_last (n : nat) (s : string) : string :=
  String.substring 0 (String.length s - n) s.

(** ** Flattening *)

Section Flatten.
Context {V : Type}.

(** Modelled from the spec: [ConfigurationBlock.flatten] is not among the
    sources; the specification gives it as a "mapping of '/'-joined path
    to leaf value" (path = '/'-joined key sequence).  The walk is in
    insertion order and containers contribute their leaves only. *)
Fixpoint flatten_tree (path : list string) (t : tree V) : list (string * V) :=
  match t with
  | Leaf v => [(join_slash path, v)]
  | Dict items =>
      (fix flatten_items (items : dict V) : list (string * V) :=
         match items with
         | [] => []
         | (k, t') :: rest => flatten_tree (path ++ [k]) t' ++ flatten_items rest
         end) items
  end.

(** Modelled from the spec: the result of [flatten] is a Python mapping,
    so a path met twice keeps its first position and its last value. *)
Definition flatten (c : ConfigurationBlock V) : list (string * V) :=
  fold_left (λ acc kv, dict_set kv.1 kv.2 acc) (flatten_tree [] (cb_config c)) [].
End Flatten.

(** ** Compose and diff *)

Section Engine.
Context {V : Type} `{!PyValue V}.

(** [Preset._deep_update(d, u)].  Only the overlay value [v] is tested
    for being a mapping; [d.get] on something that is not a dict is an
    [AttributeError] and [d[k] = v] on it a [TypeError]. *)
Fixpoint _deep_update (d u : tree V) {struct u} : outcome (tree V) :=
  match u with
  | Leaf _ => Raise AttributeError
  | Dict items =>
      (fix loop (d : tree V) (items : dict V) {struct items} : outcome (tree V) :=
         match items with
         | [] => Return d
         | (k, v) :: rest =>
             match v with
             | Dict _ =>
                 match d with
                 | Dict ditems =>
                     r ← _deep_update (default (Dict []) (dict_get k ditems)) v;
                     loop (Dict (dict_set k r ditems)) rest
                 | Leaf _ => Raise AttributeError
                 end
             | Leaf _ =>
                 match d with
                 | Dict ditems => loop (Dict (dict_set k v ditems)) rest
                 | Leaf _ => Raise TypeError
                 end
             end
         end) d items
  end.

(** [self.data['config']] *)
Definition data_config (self : Preset V) : outcome (tree V) :=
  match d_config (data self) with
  | Some c => Return c
  | None => Raise (KeyError "config")
  end.

(** [Preset.compose_config].  [copy.deepcopy] is the identity on
    values. *)
Fixpoint compose_config (self : Preset V) : outcome (tree V) :=
  config ← data_config self;
  match base_preset self with
  | Some base => b ← compose_config base; _deep_update b config
  | None => Return config
  end.

(** [config_block[single_key]] *)
Definition subscript (block : tree V) (k : string) : outcome (tree V) :=
  match block with
  | Dict items =>
      match dict_get k items with
      | Some t => Return t
      | None => Raise (KeyError k)
      end
  | Leaf _ => Raise TypeError
  end.

(** [for single_key in keys: config_block = config_block[single_key]] *)
Fixpoint descend (keys : list string) (block : tree V) : outcome (tree V) :=
  match keys with
  | [] => Return block
  | k :: ks => b ← subscript block k; descend ks b
  end.

(** The block reached along [keys[:-1]] loses its entry [keys[-1]]
    ([del config_block[keys[-1]]]); the dicts on the way are the same
    objects as before, so the deletion shows in [config]. *)
Fixpoint del_path (keys : list string) (config : tree V) : outcome (tree V) :=
  match keys with
  | [] => Raise IndexError
  | k :: ks =>
      match ks with
      | [] =>
          match config with
          | Dict items =>
              if dict_mem k items then Return (Dict (dict_del k items))
              else Raise (KeyError k)
          | Leaf _ => Raise TypeError
          end
      | _ :: _ =>
          match config with
          | Dict items =>
              sub ← subscript config k;
              sub' ← del_path ks sub;
              Return (Dict (dict_set k sub' items))
          | Leaf _ => Raise TypeError
          end
      end
  end.

(** [len(x)] *)
Definition len (x : tree V) : outcome nat :=
  match x with
  | Dict items => Return (length items)
  | Leaf v => match py_len v with Some n => Return n | None => Raise TypeError end
  end.

(** The [while len(keys) > 0] loop of [diff_config]; [rkeys] is [keys]
    reversed, so [keys[-1]] is its head and [keys.pop()] leaves its
    tail. *)
Fixpoint prune (rkeys : list string) (config : tree V) : outcome (tree V) :=
  match rkeys with
  | [] => Return config
  | last_key :: rinit =>
      config_block ← descend (rev rinit) config;
      item ← subscript config_block last_key;
      n ← len item;
      if (n =? 0)%nat then
        config' ← del_path (rev rkeys) config;
        prune rinit config'
      else Return config
  end.

(** The test of the loop:
    [key in old_flattened_data and old_flattened_data[key] == new_flattened_data[key]]. *)
Definition redundant (old_flattened_data new_flattened_data : list (string * V))
    (key : string) : bool :=
  match dict_get key old_flattened_data, dict_get key new_flattened_data with
  | Some old, Some new => py_eq old new
  | _, _ => false
  end.

(** One round of the [for key in new_flattened_data] loop. *)
Definition diff_step (old_flattened_data new_flattened_data : list (string * V))
    (config : tree V) (key : string) : outcome (tree V) :=
  match dict_get key old_flattened_data with
  | Some old =>
      match dict_get key new_flattened_data with
      | Some new =>
          if py_eq old new then
            let keys := split_slash key in
            config' ← del_path keys config;
            prune (rev (removelast keys)) config'
          else Return config
      | None => Raise (KeyError key)
      end
  | None => Return config
  end.

Fixpoint diff_loop (old_flattened_data new_flattened_data : list (string * V))
    (keys : list string) (config : tree V) : outcome (tree V) :=
  match keys with
  | [] => Return config
  | key :: rest =>
      config' ← diff_step old_flattened_data new_flattened_data config key;
      diff_loop old_flattened_data new_flattened_data rest config'
  end.

(** [self.config.flatten()] *)
Definition config_flatten (self : Preset V) : outcome (list (string * V)) :=
  match config self with
  | Some c => Return (flatten c)
  | None => Raise AttributeError
  end.

(** [Preset.diff_config]: the result is the argument, mutated. *)
Definition diff_config (self : Preset V) (config : tree V) : outcome (tree V) :=
  let new_flattened_data := flatten (mkConfigurationBlock config) in
  old_flattened_data ← config_flatten self;
  diff_loop old_flattened_data new_flattened_data
    (dict_keys new_flattened_data) config.
End Engine.

(** ** Naming, construction, cloning *)

Definition set_data_name {V} (n : string) (r : RawData V) : RawData V :=
  mkRawData (Some n) (d_uuid r) (d_creation_time r) (d_config r) (d_abstract r).

Definition set_data_config {V} (c : tree V) (r : RawData V) : RawData V :=
  mkRawData (d_name r) (d_uuid r) (d_creation_time r) (Some c) (d_abstract r).

Definition set_data_field {V} (r : RawData V) (p : Preset V) : Preset V :=
  mkPreset (prefix p) (base_preset p) (file p) (try_number p)
    (_printed_settings p) (logger p) r (name p) (uuid p) (creation_time p)
    (config p) (abstract p).

Section Construction.
Context {V : Type} `{!PyValue V}.

(** The [for key in flattened_data] loop of [_generate_name]. *)
Definition name_parts (flattened_data : list (string * V)) (n : string) : string :=
  fold_left (λ n kv, n +:+ kv.1 +:+ ": " +:+ py_str kv.2 +:+ " - ")
    flattened_data n.

(** [Preset._generate_name]: the name, and the preset whose [data] now
    holds it. *)
Definition _generate_name (self : Preset V) : outcome (string * Preset V) :=
  let n := "" in
  let n :=
    match base_preset self with
    | Some base =>
        match base_preset base with
        | Some _ => n +:+ name base +:+ ": "
        | None => n
        end
    | None => n
    end in
  flattened_data ← config_flatten self;
  let n := name_parts flattened_data n in
  let n :=
    if endswith n " - " then drop_last 3 n
    else if decide (n = "") then "empty"
    else n in
  Return (n, set_data_field (set_data_name n (data self)) self).

(** [Preset.set_data].  [fresh_uuid] and [now] are what [uuid.uuid4()]
    and [datetime.datetime.now().timestamp()] deliver. *)
Definition set_data (self : Preset V) (new_data : RawData V)
    (fresh_uuid : string) (now : Z) : outcome (Preset V) :=
  let uuid' := default fresh_uuid (d_uuid new_data) in
  let creation_time' := default now (d_creation_time new_data) in
  let new_data :=
    mkRawData (d_name new_data) (Some uuid') (Some creation_time')
      (d_config new_data) (d_abstract new_data) in
  new_data ←
    match base_preset self with
    | Some base =>
        candidate ← match d_config new_data with
                     | Some c => Return c
                     | None => Raise (KeyError "config")
                     end;
        c ← diff_config base candidate;
        Return (set_data_config c new_data)
    | None => Return new_data
    end;
  c ← match d_config new_data with
       | Some c => Return c
       | None => Raise (KeyError "config")
       end;
  let self :=
    mkPreset (prefix self) (base_preset self) (file self) (try_number self)
      (_printed_settings self) (logger self) new_data (name self)
      (uuid self) (creation_time self) (Some (mkConfigurationBlock c))
      (abstract self) in
  '(n, self) ←
    match d_name new_data with
    | Some n => Return (n, self)
    | None => _generate_name self
    end;
  Return
    (mkPreset (prefix self) (base_preset self) (file self) (try_number self)
       (_printed_settings self) (logger self) (data self) n
       uuid' creation_time' (config self)
       (match d_abstract new_data with Some b => b | None => false end)).

(** [Preset.__init__] *)
Definition __init__ (data : option (RawData V)) (base : option (Preset V))
    (file : option string) (fresh_uuid : string) (now : Z) : outcome (Preset V) :=
  let self :=
    mkPreset "" base file 0 ∅ None
      (mkRawData None None None None None) "" "" 0 None false in
  match data with
  | Some data => set_data self data fresh_uuid now
  | None => Return self
  end.

(** [Preset(base_preset=b)], the call [clone] makes: no data, so neither
    a lookup nor the clock can fail or matter. *)
Definition blank (base : option (Preset V)) : Preset V :=
  mkPreset "" base None 0 ∅ None
    (mkRawData None None None None None) "" "" 0 None false.

(** [Preset.clone] *)
Definition clone (self : Preset V) : Preset V :=
  let preset := blank (base_preset self) in
  mkPreset (prefix self) (base_preset preset) (file self) (try_number self)
    (_printed_settings preset) (logger preset) (data self) (name self)
    (uuid self) (creation_time self) (config self) (abstract preset).

(** [Preset.get_with_prefix] *)
Definition get_with_prefix (self : Preset V) (segment : string) : Preset V :=
  let preset := clone self in
  set_prefix (prefix self +:+ segment +:+ "/") preset.

(** [Preset.set_logger] *)
Definition set_logger (self : Preset V) (new_logger : option Logger) : Preset V :=
  set_logger_field new_logger (set_printed_settings ∅ self).
End Construction.

(** ** The typed getters *)

Section Getters.
Context {V : Type} `{!PyValue V, !TypedStore V}.

Definition get_int (self : Preset V) (name : string) (fallback : option string) :=
  _get_value_with_fallback self name fallback TInt.

Definition get_string (self : Preset V) (name : string) (fallback : option string) :=
  _get_value_with_fallback self name fallback TString.

Definition get_float (self : Preset V) (name : string) (fallback : option string) :=
  _get_value_with_fallback self name fallback TFloat.

Definition get_bool (self : Preset V) (name : string) (fallback : option string) :=
  _get_value_with_fallback self name fallback TBool.

Definition get_list (self : Preset V) (name : string) (fallback : option string) :=
  _get_value_with_fallback self name fallback TList.

(** The five getters, by type tag. *)
Definition getter (t : value_type)
  : Preset V → string → option string → Sink → outcome V * Preset V * Sink :=
  match t with
  | TInt => get_int
  | TString => get_string
  | TFloat => get_float
  | TBool => get_bool
  | TList => get_list
  end.
End Getters.


(** ** The inheritance chain *)

Section Chain.
Context {V : Type} `{!PyValue V, !TypedStore V}.

(** The preset, its base, the base of its base, ..., the root. *)
Fixpoint chain (self : Preset V) : list (Preset V) :=
  self :: match base_preset self with
          | Some base => chain base
          | None => []
          end.

(** Does the preset's own store answer for the name with anything but
    a [NotFoundError]? *)
Definition answers (name : string) (value_type : value_type) (p : Preset V) : bool :=
  negb (is_not_found (config_get p name value_type)).

(** The nearest (most-derived) preset of the chain whose own store
    answers for the name. *)
Definition nearest (self : Preset V) (name : string) (value_type : value_type)
  : option (Preset V) :=
  find (answers name value_type) (chain self).

(** Induction along the chain, from the root. *)
Fixpoint chain_ind (P : Preset V → Prop)
    (Hroot : ∀ p, base_preset p = None → P p)
    (Hstep : ∀ p base, base_preset p = Some base → P base → P p)
    (p : Preset V) {struct p} : P p :=
  match p with
  | mkPreset pre base f tn ps lg d n u ct c ab =>
      match base as b
        return P (mkPreset pre b f tn ps lg d n u ct c ab) with
      | None => Hroot (mkPreset pre None f tn ps lg d n u ct c ab) eq_refl
      | Some b =>
          Hstep (mkPreset pre (Some b) f tn ps lg d n u ct c ab) b eq_refl
            (chain_ind P Hroot Hstep b)
      end
  end.

(** The [try] block of [_get_value_with_fallback] on its own: the
    outcome of the lookup before anything is logged. *)
Definition resolve (self : Preset V) (name : string) (fallback : option string)
    (value_type : value_type) : outcome V :=
  match _get_value self (prefix self +:+ name) value_type with
  | Raise (NotFoundError msg) =>
      match fallback with
      | Some fb => _get_value self (prefix self +:+ fb) value_type
      | None => Raise (NotFoundError msg)
      end
  | r => r
  end.

(** A run of getter calls on one instance: each call is a type tag, a
    name and a fallback; the preset and the sink are threaded through,
    the outcomes are dropped. *)
Definition call := (value_type * string * option string)%type.

Fixpoint run_calls (calls : list call) (self : Preset V) (out : Sink)
  : Preset V * Sink :=
  match calls with
  | [] => (self, out)
  | (t, name, fallback) :: rest =>
      let '(_, self', out') := getter t self name fallback out in
      run_calls rest self' out'
  end.
End Chain.

(** ** Trees that are Python values, paths, and the merge policy *)

Section Trees.
Context {V : Type}.

(** Induction on trees, with the hypothesis for every entry of a dict. *)
Fixpoint tree_ind' (P : tree V → Prop)
    (Hleaf : ∀ v, P (Leaf v))
    (Hdict : ∀ items, Forall (λ kv, P kv.2) items → P (Dict items))
    (t : tree V) {struct t} : P t :=
  match t with
  | Leaf v => Hleaf v
  | Dict items =>
      Hdict items
        ((fix go (items : dict V) : Forall (λ kv, P kv.2) items :=
            match items with
            | [] => List.Forall_nil _
            | (k, t') :: rest =>
                @List.Forall_cons _ (λ kv, P kv.2) (k, t') rest
                  (tree_ind' P Hleaf Hdict t') (go rest)
            end) items)
  end.

(** The keys of a Python dict are distinct, at every level. *)
Fixpoint wf (t : tree V) : bool :=
  match t with
  | Leaf _ => true
  | Dict items =>
      bool_decide (NoDup (dict_keys items))
      && (fix all (items : dict V) : bool :=
            match items with
            | [] => true
            | (_, t') :: rest => wf t' && all rest
            end) items
  end.

(** No key holds a slash, so that a key sequence can be read off its
    '/'-joined path. *)
Definition slash_free (k : string) : bool :=
  bool_decide (slash ∉ String.list_ascii_of_string k).

Fixpoint slash_free_keys (t : tree V) : bool :=
  match t with
  | Leaf _ => true
  | Dict items =>
      (fix all (items : dict V) : bool :=
         match items with
         | [] => true
         | (k, t') :: rest => slash_free k && slash_free_keys t' && all rest
         end) items
  end.

(** The leaf at the end of a key sequence, if there is one. *)
Fixpoint leaf_at (keys : list string) (t : tree V) : option V :=
  match keys, t with
  | [], Leaf v => Some v
  | k :: ks, Dict items =>
      match dict_get k items with
      | Some t' => leaf_at ks t'
      | None => None
      end
  | _, _ => None
  end.

(** The merge policy in the words of the specification: "for each key in
    the overlay, if both existing and overlay values are nested
    containers, merge recursively (union of keys); otherwise the overlay
    value replaces the existing value outright". *)
Fixpoint deep_merge (d u : tree V) {struct u} : tree V :=
  match u, d with
  | Dict uitems, Dict ditems =>
      Dict ((fix over (ditems uitems : dict V) {struct uitems} : dict V :=
               match uitems with
               | [] => ditems
               | (k, v) :: rest =>
                   let v' :=
                     match dict_get k ditems, v with
                     | Some (Dict existing), Dict _ => deep_merge (Dict existing) v
                     | _, _ => v
                     end in
                   over (dict_set k v' ditems) rest
               end) ditems uitems)
  | _, _ => u
  end.

(** Nowhere does the overlay hold a mapping at a key at which the
    existing tree holds a leaf. *)
Fixpoint compatible (d u : tree V) {struct u} : bool :=
  match u, d with
  | Dict uitems, Dict ditems =>
      (fix all (uitems : dict V) : bool :=
         match uitems with
         | [] => true
         | (k, v) :: rest =>
             match v, dict_get k ditems with
             | Dict _, Some existing => compatible existing v
             | _, _ => true
             end && all rest
         end) uitems
  | _, _ => false
  end.

(** Does the overlay hold a leaf strictly above the path?  Such a leaf
    replaces whatever the existing tree holds below it. *)
Fixpoint shadowed (keys : list string) (u : tree V) : bool :=
  match keys, u with
  | k :: ks, Dict items =>
      match dict_get k items with
      | Some (Leaf _) => true
      | Some t' => shadowed ks t'
      | None => false
      end
  | _, _ => false
  end.

(** Composition in the words of the specification: "recursively compose
    the base preset's full config first (root terminates the recursion by
    returning its own config as-is), then deep-merge this preset's own
    delta on top". *)
Fixpoint composed (self : Preset V) : option (tree V) :=
  c ← d_config (data self);
  match base_preset self with
  | None => Some c
  | Some base => b ← composed base; Some (deep_merge b c)
  end.

(** Every delta of the chain is a well-formed dict that can be merged
    onto what lies below it. *)
Fixpoint mergeable (self : Preset V) : bool :=
  match d_config (data self), base_preset self with
  | Some _, None => true
  | Some c, Some base =>
      mergeable base
      && match composed base with
         | Some b => wf c && compatible b c
         | None => false
         end
  | None, _ => false
  end.
End Trees.

(** ** The loop invariant of [diff_config] *)

(** Where the config stands once the keys [seen] have been handled: it
    has the leaves of the candidate [c], without those whose path has
    been seen and found redundant. *)
Definition diff_inv {V} `{!PyValue V} (old new : list (string * V))
    (c : tree V) (seen : list string) (cur : tree V) : Prop :=
  ∀ ks, leaf_at ks cur =
          if bool_decide (join_slash ks ∈ seen) && redundant old new (join_slash ks)
          then None else leaf_at ks c.

(** ** The experiment name, the root, and joined texts *)

(** [Preset.get_experiment_name]; [str] of an [int] is its decimal
    numeral. *)
Definition get_experiment_name {V} (self : Preset V) : string :=
  ((name self +:+ " (try ") +:+ pretty (try_number self)) +:+ ")".

(** The preset at the end of the inheritance chain. *)
Fixpoint root_of {V} (self : Preset V) : Preset V :=
  match base_preset self with
  | Some base => root_of base
  | None => self
  end.

(** [sep.join(parts)] *)
Fixpoint join_with (sep : string) (parts : list string) : string :=
  match parts with
  | [] => ""
  | [p] => p
  | p :: ps => p +:+ sep +:+ join_with sep ps
  end.

(** [key + ": " + str(value)], one entry of a generated name. *)
Definition entry_text {V} `{!PyValue V} (kv : string * V) : string :=
  kv.1 +:+ ": " +:+ py_str kv.2.

(** The text [_generate_name] starts from: the base's name when the base
    is itself derived. *)
Definition name_prefix {V} (self : Preset V) : string :=
  match base_preset self with
  | Some base =>
      match base_preset base with
      | Some _ => name base +:+ ": "
      | None => ""
      end
  | None => ""
  end.

(** ** Empty mappings *)

(** A leaf, or a mapping that is not empty and holds none that is. *)
Fixpoint inhabited {V} (t : tree V) : bool :=
  match t with
  | Leaf _ => true
  | Dict items =>
      match items with [] => false | _ :: _ => true end
      && (fix all (items : dict V) : bool :=
            match items with
            | [] => true
            | (_, t') :: rest => inhabited t' && all rest
            end) items
  end.

(** No mapping nested in [t] is empty; [t] itself may be. *)
Definition no_empty_mapping {V} (t : tree V) : bool :=
  match t with
  | Leaf _ => true
  | Dict items => forallb (λ kv, inhabited kv.2) items
  end.

(** Where the config stands between [del config_block[keys[-1]]] and the
    [while] loop of [diff_config]: no nested mapping is empty, except
    possibly the one at the end of [keys]. *)
Fixpoint hollow {V} (keys : list string) (t : tree V) : Prop :=
  match t with
  | Leaf _ => True
  | Dict items =>
      ∀ k c, dict_get k items = Some c →
             match keys with
             | [] => inhabited c = true
             | k0 :: ks => if decide (k = k0) then hollow ks c else inhabited c = true
             end
  end.

(** ** Cloning at the level of object references

    Everywhere else a Python object is the value it holds.  What [clone]
    shares and what it makes anew only shows once objects have an
    identity, so here presets, their dedup sets, their raw records and
    their stores sit in a heap and a preset holds references to them. *)

Module ObjectStore.

Definition ref := positive.

Record PresetObject := mkPresetObject {
  o_prefix : string;
  o_base_preset : option ref;
  o_file : option string;
  o_try_number : Z;
  o_printed_settings : ref;
  o_logger : option ref;
  o_data : ref;
  o_name : string;
  o_uuid : string;
  o_creation_time : Z;
  o_config : option ref;
  o_abstract : bool
}.

Inductive object (V : Type) :=
| PresetO (p : PresetObject)
| SetO (s : gset string)
| DataO (d : RawData V)
| ConfigO (c : ConfigurationBlock V)
| LoggerO.
Arguments PresetO {V} p.
Arguments SetO {V} s.
Arguments DataO {V} d.
Arguments ConfigO {V} c.
Arguments LoggerO {V}.

(** A new object gets a reference that is not in use. *)
Definition alloc {V} (o : object V) (h : gmap ref (object V))
  : ref * gmap ref (object V) :=
  let r := fresh (dom h) in (r, <[r := o]> h).

(** [Preset(base_preset=base)]: [__init__] without data makes a new set
    and a new empty record. *)
Definition new_preset {V} (base : option ref) (h : gmap ref (object V))
  : ref * gmap ref (object V) :=
  let '(s, h) := alloc (SetO ∅) h in
  let '(d, h) := alloc (DataO (mkRawData None None None None None)) h in
  alloc (PresetO (mkPresetObject "" base None 0 s None d "" "" 0 None false)) h.

(** [Preset.clone]: the assignments copy references. *)
Definition clone {V} (self : ref) (h : gmap ref (object V))
  : option (ref * gmap ref (object V)) :=
  match h !! self with
  | Some (PresetO o) =>
      let '(preset, h) := new_preset (o_base_preset o) h in
      match h !! preset with
      | Some (PresetO n) =>
          Some (preset,
                <[preset :=
                    PresetO (mkPresetObject (o_prefix o) (o_base_preset n)
                               (o_file o) (o_try_number o) (o_printed_settings n)
                               (o_logger n) (o_data o) (o_name o) (o_uuid o)
                               (o_creation_time o) (o_config o) (o_abstract n))]> h)
      | _ => None
      end
  | _ => None
  end.

(** [Preset.get_with_prefix]: the clone, with its own prefix. *)
Definition get_with_prefix {V} (self : ref) (segment : string)
    (h : gmap ref (object V)) : option (ref * gmap ref (object V)) :=
  match h !! self with
  | Some (PresetO o) =>
      '(preset, h) ← clone self h;
      match h !! preset with
      | Some (PresetO n) =>
          Some (preset,
                <[preset :=
                    PresetO (mkPresetObject (o_prefix o +:+ segment +:+ "/")
                               (o_base_preset n) (o_file n) (o_try_number n)
                               (o_printed_settings n) (o_logger n) (o_data n)
                               (o_name n) (o_uuid n) (o_creation_time n)
                               (o_config n) (o_abstract n))]> h)
      | _ => None
      end
  | _ => None
  end.

End ObjectStore.

(** ** A concrete universe of values and a concrete store

    Used to run the definitions on examples. *)

Module Example.

Inductive pyval :=
| PNone
| PBool (b : bool)
| PInt (z : Z)
| PStr (s : string)
| PList (l : list Z).

(** Python's [==]: [True == 1], and otherwise same kind and same
    content. *)
Definition pyval_eq (x y : pyval) : bool :=
  match x, y with
  | PNone, PNone => true
  | PBool a, PBool b => bool_decide (a = b)
  | PBool a, PInt z | PInt z, PBool a => bool_decide (z = if a then 1 else 0)%Z
  | PInt a, PInt b => bool_decide (a = b)
  | PStr a, PStr b => bool_decide (a = b)
  | PList a, PList b => bool_decide (a = b)
  | _, _ => false
  end.

Fixpoint str_ints (l : list Z) : string :=
  match l with
  | [] => ""
  | [z] => pretty z
  | z :: l' => pretty z +:+ ", " +:+ str_ints l'
  end.

(** Python's [str] *)
Definition pyval_str (x : pyval) : string :=
  match x with
  | PNone => "None"
  | PBool b => if b then "True" else "False"
  | PInt z => pretty z
  | PStr s => s
  | PList l => "[" +:+ str_ints l +:+ "]"
  end.

Definition pyval_len (x : pyval) : option nat :=
  match x with
  | PStr s => Some (String.length s)
  | PList l => Some (length l)
  | _ => None
  end.

#[export] Instance pyval_value : PyValue pyval :=
  {| py_eq := pyval_eq; py_str := pyval_str; py_len := pyval_len |}.

(** Has the stored value the requested type?  An integer passes for a
    float as well; nothing is converted. *)
Definition has_type (t : value_type) (x : pyval) : bool :=
  match t, x with
  | TInt, PInt _ | TFloat, PInt _ | TString, PStr _ | TBool, PBool _
  | TList, PList _ => true
  | _, _ => false
  end.

Fixpoint find_path (keys : list string) (t : tree pyval) : option (tree pyval) :=
  match keys with
  | [] => Some t
  | k :: ks =>
      match t with
      | Dict items =>
          match dict_get k items with
          | Some t' => find_path ks t'
          | None => None
          end
      | Leaf _ => None
      end
  end.

(** Modelled from the spec: the typed getters of [ConfigurationBlock]
    are not among the sources.  Per the specification a getter fails
    "with a NotFound condition when absent, and a type-error condition
    when present but unconvertible"; this store finds a value by its
    '/'-joined path and hands it out when it has the requested type. *)
Definition store_get (t : value_type) (c : ConfigurationBlock pyval)
    (name : string) : outcome pyval :=
  match find_path (split_slash name) (cb_config c) with
  | Some (Leaf x) =>
      if has_type t x then Return x
      else Raise (StoreError ("cannot convert " +:+ name))
  | Some (Dict _) | None => Raise (NotFoundError name)
  end.

#[export] Instance example_store : TypedStore pyval := {| cb_get := store_get |}.

(** A root preset holding [c]. *)
Definition root (c : tree pyval) : Preset pyval :=
  mkPreset "" None None 0 ∅ None
    (mkRawData (Some "root") (Some "u0") (Some 0%Z) (Some c) None)
    "root" "u0" 0 (Some (mkConfigurationBlock c)) false.

(** A preset derived from [base], holding the delta [c]. *)
Definition derived (n : string) (base : Preset pyval) (c : tree pyval)
  : Preset pyval :=
  mkPreset "" (Some base) None 0 ∅ None
    (mkRawData (Some n) (Some "u1") (Some 0%Z) (Some c) None)
    n "u1" 0 (Some (mkConfigurationBlock c)) false.

(** *** Inputs the examples below are run on *)

Definition i (z : Z) : tree pyval := Leaf (PInt z).

(** [{db: {port: 5432, host: "localhost"}, debug: False, retries: 0}] *)
Definition app_root : Preset pyval :=
  root (Dict [("db", Dict [("port", i 5432); ("host", Leaf (PStr "localhost"))]);
              ("debug", Leaf (PBool false)); ("retries", i 0)]).

(** overrides [db/port] *)
Definition app_mid : Preset pyval :=
  derived "mid" app_root (Dict [("db", Dict [("port", i 6000)])]).

(** overrides [debug] *)
Definition app_leaf : Preset pyval :=
  derived "leaf" app_mid (Dict [("debug", Leaf (PBool true))]).

(** A raw record with a config and nothing else. *)
Definition raw (c : tree pyval) : RawData pyval :=
  mkRawData None None None (Some c) None.

(** [Preset(data, base_preset)] *)
Definition construct (data : RawData pyval) (base : option (Preset pyval))
  : outcome (Preset pyval) :=
  __init__ (Some data) base None "uuid" 0.

(** A three-level chain built by the constructor: the root holds
    [{a: 1}], the middle preset inherits everything, and the last one
    is given [{a: 1}] again. *)
Definition top : outcome (Preset pyval) :=
  construct (raw (Dict [("a", i 1)])) None.
Definition middle : outcome (Preset pyval) :=
  g ← top; construct (raw (Dict [])) (Some g).
Definition bottom : outcome (Preset pyval) :=
  m ← middle; construct (raw (Dict [("a", i 1)])) (Some m).

(** A preset over the root [{a: 1}] whose delta puts a mapping where
    the root has a number. *)
Definition nested_over_scalar : outcome (Preset pyval) :=
  g ← top; construct (raw (Dict [("a", Dict [("b", i 2)])])) (Some g).
Definition empty_over_scalar : outcome (Preset pyval) :=
  g ← top; construct (raw (Dict [("a", Dict [])])) (Some g).


(** A heap with one preset (at 1), its store (2), its dedup set (3) and
    its raw record (4). *)
Definition one_preset : ObjectStore.PresetObject :=
  ObjectStore.mkPresetObject "" None None 0 3%positive None 4%positive "root" "u0"
    0 (Some 2%positive) true.

Definition one_preset_heap : gmap ObjectStore.ref (ObjectStore.object pyval) :=
  {[ 1%positive := ObjectStore.PresetO one_preset;
     2%positive := ObjectStore.ConfigO (mkConfigurationBlock (Dict [("a", i 1)]));
     3%positive := ObjectStore.SetO {["a"]};
     4%positive := ObjectStore.DataO (raw (Dict [("a", i 1)])) ]}.

(** The preset [Preset({config: {a: 1}}, root)] over the root
    [{a: 1}]. *)
Definition same_as_root : Preset pyval :=
  Eval vm_compute in
    match construct (raw (Dict [("a", i 1)])) (Some (root (Dict [("a", i 1)]))) with
    | Return p => p
    | Raise _ => blank None
    end.

End Example.

(** * Properties *)

(** ** Resolution *)

Section ResolutionFacts.
Context {V : Type} `{!PyValue V, !TypedStore V}.
Implicit Types (self p q : Preset V) (t : value_type) (out : Sink).

Lemma getter_unfold t :
  getter t = λ self name fallback, _get_value_with_fallback self name fallback t.
Proof. by destruct t. Qed.

Lemma _get_value_unfold self name t :
  _get_value self name t =
    match config_get self name t with
    | Raise (NotFoundError msg) =>
        match base_preset self with
        | None => Raise (NotFoundError msg)
        | Some base => _get_value base name t
        end
    | r => r
    end.
Proof. by destruct self. Qed.

Lemma _get_value_with_fallback_outcome self name fallback t out :
  (_get_value_with_fallback self name fallback t out).1.1
  = resolve self name fallback t.
Proof.
  unfold _get_value_with_fallback, resolve.
  destruct (_get_value self (prefix self +:+ name) t) as [v|e] eqn:Hp.
  - simpl. destruct (logger self); [case_decide|]; done.
  - destruct e; try done.
    destruct fallback as [fb|]; [|done].
    destruct (_get_value self (prefix self +:+ fb) t) as [v|e']; [|done].
    destruct (logger self); [case_decide|]; done.
Qed.

(** A failed call changes nothing and logs nothing. *)
Lemma _get_value_with_fallback_raise self name fallback t out e :
  resolve self name fallback t = Raise e →
  _get_value_with_fallback self name fallback t out = (Raise e, self, out).
Proof.
  unfold _get_value_with_fallback, resolve. intros Hr.
  destruct (_get_value self (prefix self +:+ name) t) as [v|e0]; [done|].
  destruct e0; try by simplify_eq.
  destruct fallback as [fb|]; [|by simplify_eq].
  by rewrite Hr.
Qed.

(** The chain walk ends at the nearest preset whose store answers. *)
Lemma _get_value_nearest self name t q :
  nearest self name t = Some q →
  _get_value self name t = config_get q name t.
Proof.
  unfold nearest. revert q.
  induction self as [p Hb|p base Hb IH] using chain_ind; intros q;
    rewrite _get_value_unfold; destruct p; simpl in *; subst; simpl;
    unfold answers at 1; simpl.
  - destruct (config_get _ name t) as [v|[]] eqn:Hc; simpl;
      intros; simplify_eq; by rewrite ?Hc.
  - destruct (config_get _ name t) as [v|[]] eqn:Hc; simpl;
      intros; simplify_eq; rewrite ?Hc; auto.
Qed.

(** Without such a preset the walk ends in the root's [NotFoundError]. *)
Lemma _get_value_nowhere self name t :
  nearest self name t = None →
  ∃ msg, _get_value self name t = Raise (NotFoundError msg).
Proof.
  unfold nearest.
  induction self as [p Hb|p base Hb IH] using chain_ind;
    rewrite _get_value_unfold; destruct p; simpl in *; subst; simpl;
    unfold answers at 1; simpl.
  - destruct (config_get _ name t) as [v|[]] eqn:Hc; simpl;
      intros; simplify_eq; eauto.
  - destruct (config_get _ name t) as [v|[]] eqn:Hc; simpl;
      intros; simplify_eq; eauto.
Qed.

Lemma nearest_answers self name t q :
  nearest self name t = Some q → is_not_found (config_get q name t) = false.
Proof.
  unfold nearest. intros Hf. apply find_some in Hf as [_ Ha].
  unfold answers in Ha. by apply negb_true_iff in Ha.
Qed.

(** C1.  For every preset [self], every name and each of the five typed
    getters: when [q] is the nearest preset of the inheritance chain of
    [self] whose own store does not miss the prefixed name (the own
    store comes first, the base only after a [NotFoundError], and so on
    up to the root), and the store of [q] holds the value [v] for it,
    then the getter called on [self] returns [v], whatever fallback is
    passed. *)
Theorem getter_returns_nearest t self name fallback out q v :
  nearest self (prefix self +:+ name) t = Some q →
  config_get q (prefix self +:+ name) t = Return v →
  (getter t self name fallback out).1.1 = Return v.
Proof.
  intros Hn Hq. rewrite getter_unfold, _get_value_with_fallback_outcome.
  unfold resolve. by rewrite (_get_value_nearest _ _ _ _ Hn), Hq.
Qed.

(** What a getter call does, in terms of [resolve]. *)
Lemma _get_value_with_fallback_spec self name fallback t out :
  _get_value_with_fallback self name fallback t out =
    match resolve self name fallback t with
    | Return v =>
        match logger self with
        | Some lg =>
            if decide (prefix self +:+ name ∈ _printed_settings self)
            then (Return v, self, out)
            else (Return v,
                  set_printed_settings
                    ({[prefix self +:+ name]} ∪ _printed_settings self) self,
                  out ++ [(lg, log_line (prefix self +:+ name) v)])
        | None => (Return v, self, out)
        end
    | Raise e => (Raise e, self, out)
    end.
Proof.
  destruct (resolve self name fallback t) as [v|e] eqn:Hr.
  - unfold _get_value_with_fallback. unfold resolve in Hr.
    destruct (_get_value self (prefix self +:+ name) t) as [v0|[]];
      simplify_eq; try done.
    destruct fallback; simplify_eq. by rewrite Hr.
  - by apply _get_value_with_fallback_raise.
Qed.

(** C4.  With a fallback name supplied: (1) when the prefixed primary
    name resolves in the chain, to whatever value (a falsy one as
    well), the getter returns that value and the fallback plays no
    part; (2) when no preset of the chain answers for the primary name,
    the outcome is that of the chain lookup of the prefixed fallback;
    (3) when no preset of the chain answers for either, the call
    raises a [NotFoundError] and leaves preset and log as they were. *)
Theorem fallback_after_primary t self name fb out :
  (∀ q v, nearest self (prefix self +:+ name) t = Some q →
          config_get q (prefix self +:+ name) t = Return v →
          (getter t self name (Some fb) out).1.1 = Return v ∧
          getter t self name (Some fb) out = getter t self name None out)
  ∧ (nearest self (prefix self +:+ name) t = None →
     (getter t self name (Some fb) out).1.1
     = _get_value self (prefix self +:+ fb) t)
  ∧ (nearest self (prefix self +:+ name) t = None →
     nearest self (prefix self +:+ fb) t = None →
     ∃ msg, getter t self name (Some fb) out
            = (Raise (NotFoundError msg), self, out)).
Proof.
  rewrite getter_unfold. split_and!.
  - intros q v Hn Hq.
    assert (∀ fallback, resolve self name fallback t = Return v) as Hr.
    { intros ?. unfold resolve. by rewrite (_get_value_nearest _ _ _ _ Hn), Hq. }
    split.
    + by rewrite _get_value_with_fallback_outcome.
    + by rewrite !_get_value_with_fallback_spec, !Hr.
  - intros Hn. rewrite _get_value_with_fallback_outcome. unfold resolve.
    by destruct (_get_value_nowhere _ _ _ Hn) as [msg ->].
  - intros Hn Hf.
    destruct (_get_value_nowhere _ _ _ Hn) as [msg Hm].
    destruct (_get_value_nowhere _ _ _ Hf) as [msg' Hm'].
    exists msg'. apply _get_value_with_fallback_raise.
    unfold resolve. by rewrite Hm, Hm'.
Qed.

(** C9.  When the nearest preset whose store answers for the prefixed
    name answers with an exception [e] (its stored value cannot be
    converted), the getter raises that very [e] and neither the preset
    nor the log changes; and the same holds for the lookup of the
    fallback once the primary name is found nowhere.  Only
    [NotFoundError] is ever caught. *)
Theorem store_error_propagates t self name fallback out e :
  (∀ q, nearest self (prefix self +:+ name) t = Some q →
        config_get q (prefix self +:+ name) t = Raise e →
        getter t self name fallback out = (Raise e, self, out))
  ∧ (∀ fb q, fallback = Some fb →
        nearest self (prefix self +:+ name) t = None →
        nearest self (prefix self +:+ fb) t = Some q →
        config_get q (prefix self +:+ fb) t = Raise e →
        getter t self name fallback out = (Raise e, self, out)).
Proof.
  rewrite getter_unfold. split.
  - intros q Hn Hq. apply _get_value_with_fallback_raise.
    pose proof (nearest_answers _ _ _ _ Hn) as Ha. rewrite Hq in Ha.
    unfold resolve. rewrite (_get_value_nearest _ _ _ _ Hn), Hq.
    by destruct e.
  - intros fb q -> Hn Hf Hq. apply _get_value_with_fallback_raise.
    destruct (_get_value_nowhere _ _ _ Hn) as [msg Hm].
    unfold resolve. by rewrite Hm, (_get_value_nearest _ _ _ _ Hf), Hq.
Qed.
End ResolutionFacts.

(** ** Cloning and references *)

Section ObjectStoreFacts.
Context {V : Type}.
Import ObjectStore.

Lemma alloc_fresh (o : object V) (h h' : gmap ref (object V)) r :
  alloc o h = (r, h') →
  h !! r = None ∧ h' !! r = Some o ∧ ∀ l, is_Some (h !! l) → h' !! l = h !! l.
Proof.
  unfold alloc. intros [= <- <-].
  assert (h !! fresh (dom h) = None) as Hf
    by apply not_elem_of_dom, is_fresh.
  split_and!; [done|by rewrite lookup_insert_eq|].
  intros l [x Hl]. rewrite lookup_insert_ne; [done|]. congruence.
Qed.

(** The clone is a new object.  Its [config], [data] and [base_preset]
    are the very references the original holds; its dedup set is a new,
    empty set; it has no logger and is not abstract; and no object that
    existed before is changed. *)
Theorem clone_shares_references (h : gmap ref (object V)) self o :
  h !! self = Some (PresetO o) →
  ∃ r h' n,
    clone self h = Some (r, h')
    ∧ h !! r = None
    ∧ h' !! r = Some (PresetO n)
    ∧ o_config n = o_config o
    ∧ o_data n = o_data o
    ∧ o_base_preset n = o_base_preset o
    ∧ o_prefix n = o_prefix o
    ∧ h !! o_printed_settings n = None
    ∧ h' !! o_printed_settings n = Some (SetO ∅)
    ∧ o_logger n = None
    ∧ o_abstract n = false
    ∧ ∀ l, is_Some (h !! l) → h' !! l = h !! l.
Proof.
  intros Hself. unfold clone, new_preset. rewrite Hself.
  destruct (alloc (SetO ∅) h) as [s h1] eqn:Hs.
  apply alloc_fresh in Hs as (Hs1 & Hs2 & Hs3).
  destruct (alloc (DataO _) h1) as [d h2] eqn:Hd.
  apply alloc_fresh in Hd as (Hd1 & Hd2 & Hd3).
  destruct (alloc (PresetO _) h2) as [r h3] eqn:Hp.
  apply alloc_fresh in Hp as (Hp1 & Hp2 & Hp3). rewrite Hp2.
  assert (∀ l, is_Some (h1 !! l) → h3 !! l = h1 !! l) as Hframe1.
  { intros l Hl. rewrite Hp3, Hd3; by rewrite ?Hd3. }
  assert (∀ l, is_Some (h !! l) → h3 !! l = h !! l) as Hframe.
  { intros l Hl. rewrite Hframe1, Hs3; by rewrite ?Hs3. }
  assert (h !! r = None) as Hr.
  { destruct (h !! r) eqn:Hhr; [|done].
    assert (is_Some (h !! r)) as His by (by rewrite Hhr).
    pose proof (Hs3 r His) as H1. rewrite Hhr in H1.
    rewrite Hd3, H1 in Hp1; [done|by rewrite H1]. }
  eexists r, _,
    (mkPresetObject (o_prefix o) (o_base_preset o) (o_file o) (o_try_number o)
       s None (o_data o) (o_name o) (o_uuid o) (o_creation_time o)
       (o_config o) false).
  split_and!; try done.
  - by rewrite lookup_insert_eq.
  - simpl. rewrite lookup_insert_ne.
    + by rewrite Hframe1, Hs2 by (by rewrite Hs2).
    + intros ->. rewrite Hd3, Hs2 in Hp1 by (by rewrite Hs2). done.
  - intros l Hl. rewrite lookup_insert_ne; [by apply Hframe|].
    intros <-. rewrite Hr in Hl. by destruct Hl.
Qed.

(** The prefixed view is such a clone, under the extended prefix. *)
Lemma get_with_prefix_shares_references (h : gmap ref (object V)) self o s :
  h !! self = Some (PresetO o) →
  ∃ r h' n,
    get_with_prefix self s h = Some (r, h')
    ∧ h !! r = None
    ∧ h' !! r = Some (PresetO n)
    ∧ o_config n = o_config o
    ∧ o_data n = o_data o
    ∧ o_base_preset n = o_base_preset o
    ∧ o_prefix n = o_prefix o +:+ s +:+ "/"
    ∧ h !! o_printed_settings n = None
    ∧ ∀ l, is_Some (h !! l) → h' !! l = h !! l.
Proof.
  intros Hself. unfold get_with_prefix. rewrite Hself.
  destruct (clone_shares_references h self o Hself)
    as (r & h1 & n & -> & Hr & Hn & Hc & Hd & Hb & _ & Hp & _ & _ & _ & Hframe).
  simpl. rewrite Hn.
  eexists r, _,
    (mkPresetObject (o_prefix o +:+ s +:+ "/") (o_base_preset n) (o_file n)
       (o_try_number n) (o_printed_settings n) (o_logger n) (o_data n)
       (o_name n) (o_uuid n) (o_creation_time n) (o_config n) (o_abstract n)).
  split_and!; try done.
  - by rewrite lookup_insert_eq.
  - intros l Hl. rewrite lookup_insert_ne; [by apply Hframe|].
    intros <-. rewrite Hr in Hl. by destruct Hl.
Qed.
End ObjectStoreFacts.

(** ** Strings *)

Lemma append_cons (x : ascii) (a b : string) :
  String x a +:+ b = String x (a +:+ b).
Proof. done. Qed.

Lemma append_assoc (a b c : string) : (a +:+ b) +:+ c = a +:+ b +:+ c.
Proof.
  induction a as [|x a IH]; [done|]. by rewrite !append_cons, IH.
Qed.

(** ** Prefix scoping, cloning, logging *)

Section ScopingFacts.
Context {V : Type} `{!PyValue V, !TypedStore V}.
Implicit Types (self p q : Preset V) (t : value_type) (out : Sink).

(** The chain walk reads [config] and [base_preset] only. *)
Lemma _get_value_ext self p name t :
  config self = config p → base_preset self = base_preset p →
  _get_value self name t = _get_value p name t.
Proof.
  intros Hc Hb. rewrite (_get_value_unfold self), (_get_value_unfold p).
  unfold config_get. by rewrite Hc, Hb.
Qed.

(** C7.  For every preset, segment [s], key [k] and typed getter, the
    getter called with [k] on [get_with_prefix s] has the outcome (the
    value, or the exception) of the getter called with [s/k] on the
    preset itself; a fallback [f] on the scoped view corresponds to the
    fallback [s/f].  The view carries the [config], [base_preset] and
    [data] of the original, and its prefix is the original prefix
    followed by [s] and a slash.  With objects in a heap: the view is a
    new preset object whose [config], [data] and [base_preset] are the
    references the original holds, and making it changes no object that
    existed. *)
Theorem get_with_prefix_scoping t self s k fallback out out' :
  (getter t (get_with_prefix self s) k fallback out).1.1
  = (getter t self (s +:+ "/" +:+ k) ((λ f, s +:+ "/" +:+ f) <$> fallback) out').1.1
  ∧ config (get_with_prefix self s) = config self
  ∧ base_preset (get_with_prefix self s) = base_preset self
  ∧ data (get_with_prefix self s) = data self
  ∧ prefix (get_with_prefix self s) = prefix self +:+ s +:+ "/"
  ∧ ∀ (h : gmap ObjectStore.ref (ObjectStore.object V)) r o,
      h !! r = Some (ObjectStore.PresetO o) →
      ∃ r' h' n,
        ObjectStore.get_with_prefix r s h = Some (r', h')
        ∧ h !! r' = None
        ∧ h' !! r' = Some (ObjectStore.PresetO n)
        ∧ ObjectStore.o_config n = ObjectStore.o_config o
        ∧ ObjectStore.o_data n = ObjectStore.o_data o
        ∧ ObjectStore.o_base_preset n = ObjectStore.o_base_preset o
        ∧ ObjectStore.o_prefix n = ObjectStore.o_prefix o +:+ s +:+ "/"
        ∧ ∀ l, is_Some (h !! l) → h' !! l = h !! l.
Proof.
  split_and!; try done.
  - assert (∀ x, _get_value (get_with_prefix self s) x t = _get_value self x t)
      as Hext by (intros x; by apply _get_value_ext).
    assert (∀ x, prefix (get_with_prefix self s) +:+ x
                 = prefix self +:+ s +:+ "/" +:+ x) as Hpre.
    { intros x.
      change (prefix (get_with_prefix self s)) with (prefix self +:+ s +:+ "/").
      by rewrite !append_assoc. }
    rewrite getter_unfold, !_get_value_with_fallback_outcome.
    unfold resolve. destruct fallback as [f|]; by rewrite !Hext, !Hpre.
  - intros h r o Hr.
    destruct (get_with_prefix_shares_references h r o s Hr)
      as (r' & h' & n & ? & ? & ? & ? & ? & ? & ? & ? & ?).
    exists r', h', n. by split_and!.
Qed.

(** C10.  Whatever the [abstract] flag, the logger and the dedup set of
    a preset, its clone, and so its prefixed view, is not abstract, has
    no logger and has an empty dedup set. *)
Theorem clone_resets_abstract_and_logger self s :
  abstract (clone self) = false
  ∧ logger (clone self) = None
  ∧ _printed_settings (clone self) = ∅
  ∧ abstract (get_with_prefix self s) = false
  ∧ logger (get_with_prefix self s) = None
  ∧ _printed_settings (get_with_prefix self s) = ∅.
Proof. by split_and!. Qed.

(** Getter calls leave prefix, chain and logger alone and only add to
    the dedup set. *)
Lemma getter_frame t self name fallback out :
  let s' := (getter t self name fallback out).1.2 in
  prefix s' = prefix self ∧ base_preset s' = base_preset self
  ∧ config s' = config self ∧ logger s' = logger self
  ∧ _printed_settings self ⊆ _printed_settings s'.
Proof.
  rewrite getter_unfold, _get_value_with_fallback_spec.
  destruct (resolve self name fallback t); [|done].
  destruct (logger self) eqn:Hl; [|done].
  case_decide; [done|]. simpl. rewrite Hl. split_and!; try done. set_solver.
Qed.

Lemma run_calls_frame calls self out :
  let s' := (run_calls calls self out).1 in
  prefix s' = prefix self ∧ base_preset s' = base_preset self
  ∧ config s' = config self ∧ logger s' = logger self
  ∧ _printed_settings self ⊆ _printed_settings s'.
Proof.
  revert self out.
  induction calls as [|[[t name] fallback] calls IH]; intros self out; simpl.
  { done. }
  pose proof (getter_frame t self name fallback out) as Hg.
  destruct (getter t self name fallback out) as [[r s1] out1]. simpl in Hg.
  specialize (IH s1 out1). simpl in IH.
  destruct Hg as (? & ? & ? & ? & ?), IH as (? & ? & ? & ? & ?).
  split_and!; [congruence..|by etrans].
Qed.

(** A name already in the dedup set is resolved in silence. *)
Lemma getter_silent t self name fallback out :
  prefix self +:+ name ∈ _printed_settings self →
  (getter t self name fallback out).2 = out.
Proof.
  intros Hin. rewrite getter_unfold, _get_value_with_fallback_spec.
  destruct (resolve self name fallback t); [|done].
  destruct (logger self); [|done]. by rewrite decide_True.
Qed.

(** The first successful resolution under a logger. *)
Lemma getter_logs t self lg name fallback out v :
  logger self = Some lg →
  prefix self +:+ name ∉ _printed_settings self →
  (getter t self name fallback out).1.1 = Return v →
  (getter t self name fallback out).2
  = out ++ [(lg, "Using " +:+ (prefix self +:+ name) +:+ " = " +:+ py_str v)]
  ∧ prefix self +:+ name ∈ _printed_settings (getter t self name fallback out).1.2.
Proof.
  intros Hl Hin. rewrite getter_unfold, _get_value_with_fallback_spec.
  destruct (resolve self name fallback t); [|done].
  rewrite Hl, decide_False by done. simpl. intros [= ->].
  split; [done|set_solver].
Qed.

(** The lookup itself reads the prefix, the store and the chain only. *)
Lemma resolve_ext self p name fallback t :
  prefix self = prefix p → config self = config p →
  base_preset self = base_preset p →
  resolve self name fallback t = resolve p name fallback t.
Proof.
  intros Hp Hc Hb. unfold resolve. rewrite Hp.
  rewrite (_get_value_ext self p) by done.
  destruct fallback as [fb|]; [|done].
  by rewrite (_get_value_ext self p (prefix p +:+ fb)).
Qed.

(** Whatever a run of calls adds to the dedup set is the prefixed name
    of a call that succeeded. *)
Lemma run_calls_printed calls self out x :
  x ∈ _printed_settings (run_calls calls self out).1 →
  x ∈ _printed_settings self
  ∨ ∃ t n fb v, (t, n, fb) ∈ calls ∧ x = prefix self +:+ n
                ∧ resolve self n fb t = Return v.
Proof.
  revert self out.
  induction calls as [|[[t n] fb] calls IH]; intros self out; simpl.
  { by left. }
  pose proof (getter_frame t self n fb out) as (Hp & Hb & Hc & _ & _).
  pose proof (_get_value_with_fallback_spec self n fb t out) as Hs.
  rewrite getter_unfold in Hp, Hb, Hc |- *.
  destruct (_get_value_with_fallback self n fb t out) as [[r s1] out1].
  simpl in *. intros Hx. apply IH in Hx as [Hx|(t' & n' & fb' & v' & Hin & -> & Hr)].
  - destruct (resolve self n fb t) as [v|e] eqn:Hr; [|simplify_eq; by left].
    destruct (logger self); [|simplify_eq; by left].
    case_decide; simplify_eq; [by left|]. simpl in Hx.
    apply elem_of_union in Hx as [Hx%elem_of_singleton|Hx]; [|by left].
    right. exists t, n, fb, v. split_and!; [left|done..].
  - right. exists t', n', fb', v'. split_and!; [by right|by rewrite Hp|].
    by rewrite <-Hr; symmetry; apply resolve_ext.
Qed.

(** C8.  Let a logger [lg] be attached with [set_logger], and let, after
    any getter calls none of which resolved [name] successfully, a getter
    resolve [name] successfully, to [v].  That call sends the logger the
    one line ["Using <prefixed name> = <v>"]; after any further getter
    calls on the instance, a resolution of the same name (by any getter,
    with any fallback) sends nothing; and once [set_logger] has been
    called again, with [lg'], a successful resolution of the name sends
    one line again. *)
Theorem logging_deduplicated t self lg name fallback out pre v :
  let s0 := (run_calls pre (set_logger self (Some lg)) out).1 in
  let out0 := (run_calls pre (set_logger self (Some lg)) out).2 in
  let qname := prefix self +:+ name in
  (∀ t' fallback' v', (t', name, fallback') ∈ pre →
                      resolve self name fallback' t' ≠ Return v') →
  (getter t s0 name fallback out0).1.1 = Return v →
  let s1 := (getter t s0 name fallback out0).1.2 in
  let out1 := (getter t s0 name fallback out0).2 in
  out1 = out0 ++ [(lg, "Using " +:+ qname +:+ " = " +:+ py_str v)]
  ∧ ∀ calls,
      let s2 := (run_calls calls s1 out1).1 in
      let out2 := (run_calls calls s1 out1).2 in
      (∀ t' fallback', (getter t' s2 name fallback' out2).2 = out2)
      ∧ (∀ lg' t' fallback' v',
           let s3 := set_logger s2 (Some lg') in
           (getter t' s3 name fallback' out2).1.1 = Return v' →
           (getter t' s3 name fallback' out2).2
           = out2 ++ [(lg', "Using " +:+ qname +:+ " = " +:+ py_str v')]).
Proof.
  intros s0 out0 qname Hfirst Hv s1 out1.
  pose proof (run_calls_frame pre (set_logger self (Some lg)) out)
    as (Hp0 & _ & _ & Hl0 & _).
  fold s0 in Hp0, Hl0. simpl in Hp0, Hl0.
  assert (qname ∉ _printed_settings s0) as Hnew.
  { intros [Hx|(t' & n & fb' & v' & Hin & Heq & Hr)]%run_calls_printed.
    - set_solver.
    - simpl in Heq. apply (inj _) in Heq as <-.
      apply (Hfirst t' fb' v' Hin). by rewrite <-Hr; apply resolve_ext. }
  destruct (getter_logs t s0 lg name fallback out0 v) as [Hout Hin];
    [done|by rewrite Hp0|done|].
  rewrite Hp0 in Hout, Hin. split; [done|]. intros calls s2 out2.
  pose proof (getter_frame t s0 name fallback out0) as (Hp1 & _ & _ & _ & _).
  pose proof (run_calls_frame calls s1 out1) as (Hp2 & _ & _ & _ & Hsub).
  fold s1 in Hp1, Hin. fold s2 in Hp2, Hsub.
  assert (prefix s2 = prefix self) as Hp by (by rewrite Hp2, Hp1).
  split.
  - intros t' fallback'. apply getter_silent. rewrite Hp. apply Hsub, Hin.
  - intros lg' t' fallback' v' s3 Hv'.
    destruct (getter_logs t' s3 lg' name fallback' out2 v') as [Hout' _];
      [done|set_solver|done|].
    rewrite Hout'. by change (prefix s3) with (prefix s2); rewrite Hp.
Qed.
End ScopingFacts.


(** ** Naming *)

Section NamingFacts.
Context {V : Type} `{!PyValue V}.
Implicit Types (self p : Preset V).

Lemma bind_Return {A B} (m : outcome A) (k : A → outcome B) (b : B) :
  m ≫= k = Return b → ∃ a, m = Return a ∧ k a = Return b.
Proof. destruct m as [a|e]; [eauto|done]. Qed.

(** What [_generate_name] yields when nothing is prepended and the
    flattened delta is empty. *)
Lemma _generate_name_empty self :
  (∀ b, base_preset self = Some b → base_preset b = None) →
  config_flatten self = Return [] →
  _generate_name self
  = Return ("empty", set_data_field (set_data_name "empty" (data self)) self).
Proof.
  intros Hb Hf. unfold _generate_name. rewrite Hf. simpl.
  destruct (base_preset self) as [b|]; [|done].
  by rewrite (Hb b eq_refl).
Qed.

(** C6, amended.  For every preset constructed from a raw record
    without a name, whose base preset, if there is one, is a root, and
    whose stored delta flattens to nothing: the generated name is
    ["empty"], and it is written into [data['name']]. *)
Theorem generated_name_of_empty_delta
    (raw : RawData V) base file fresh_uuid now p :
  d_name raw = None →
  (∀ b, base = Some b → base_preset b = None) →
  __init__ (Some raw) base file fresh_uuid now = Return p →
  config_flatten p = Return [] →
  name p = "empty" ∧ d_name (data p) = Some "empty".
Proof.
  intros Hn Hb Hinit Hf. unfold __init__, set_data in Hinit. simpl in Hinit.
  apply bind_Return in Hinit as (nd & Hnd & Hinit).
  apply bind_Return in Hinit as (c & Hc & Hinit).
  apply bind_Return in Hinit as ([n s] & Hgen & Hinit).
  assert (d_name nd = None) as Hnn.
  { destruct base as [b|].
    - apply bind_Return in Hnd as (cand & _ & Hnd).
      apply bind_Return in Hnd as (c' & _ & Hnd).
      by injection Hnd as <-.
    - by injection Hnd as <-. }
  rewrite Hnn in Hgen. injection Hinit as <-.
  rewrite _generate_name_empty in Hgen.
  - by injection Hgen as <- <-.
  - done.
  - injection Hgen as <- <-. exact Hf.
Qed.
End NamingFacts.


(** ** Dicts *)

Section DictFacts.
Context {A : Type}.
Implicit Types (d : list (string * A)) (k : string).

Lemma dict_get_None k d : dict_get k d = None ↔ k ∉ dict_keys d.
Proof.
  unfold dict_keys. induction d as [|[k' a] d IH]; simpl.
  - split; [intros _; apply not_elem_of_nil|done].
  - case_decide as Hk; subst.
    + split; [done|]. intros []. by left.
    + rewrite IH, not_elem_of_cons. split; [by intros ?|by intros [_ ?]].
Qed.

Lemma dict_get_Some_elem k a d : dict_get k d = Some a → (k, a) ∈ d.
Proof.
  induction d as [|[k' a'] d IH]; simpl; [done|].
  case_decide; subst.
  - intros [= ->]. by left.
  - intros ?. right. auto.
Qed.

Lemma dict_get_elem k a d : NoDup (dict_keys d) → (k, a) ∈ d → dict_get k d = Some a.
Proof.
  unfold dict_keys. induction d as [|[k' a'] d IH]; simpl.
  - intros _ Hin. by apply elem_of_nil in Hin.
  - intros [Hk Hd]%NoDup_cons [Heq|Hin]%elem_of_cons.
    + injection Heq as -> ->. by rewrite decide_True.
    + rewrite decide_False; [auto|]. intros ->. apply Hk.
      apply list_elem_of_fmap. by exists (k', a).
Qed.

Lemma dict_get_set k k' a d :
  dict_get k (dict_set k' a d) = if decide (k = k') then Some a else dict_get k d.
Proof.
  induction d as [|[k0 a0] d IH]; simpl.
  - done.
  - destruct (decide (k' = k0)) as [->|Hne]; simpl.
    + by repeat case_decide.
    + rewrite IH. repeat case_decide; congruence.
Qed.

Lemma dict_get_del k k' d :
  NoDup (dict_keys d) →
  dict_get k (dict_del k' d) = if decide (k = k') then None else dict_get k d.
Proof.
  unfold dict_keys. induction d as [|[k0 a0] d IH]; simpl.
  - by case_decide.
  - intros [Hk Hd]%NoDup_cons.
    destruct (decide (k' = k0)) as [->|Hne]; simpl.
    + destruct (decide (k = k0)) as [->|?]; [by apply dict_get_None|done].
    + rewrite IH by done. repeat case_decide; congruence.
Qed.

Lemma dict_keys_set k a d :
  dict_keys (dict_set k a d)
  = if dict_mem k d then dict_keys d else dict_keys d ++ [k].
Proof.
  unfold dict_keys, dict_mem. induction d as [|[k0 a0] d IH]; simpl; [done|].
  destruct (decide (k = k0)) as [->|?]; csimpl; [done|]. rewrite IH.
  by destruct (dict_get k d).
Qed.

Lemma dict_set_fresh k a d : k ∉ dict_keys d → dict_set k a d = d ++ [(k, a)].
Proof.
  unfold dict_keys. induction d as [|[k0 a0] d IH]; simpl; [done|].
  intros [? ?]%not_elem_of_cons. rewrite decide_False by done.
  by rewrite IH.
Qed.

Lemma dict_keys_del k d : dict_keys (dict_del k d) ⊆ dict_keys d.
Proof.
  unfold dict_keys. induction d as [|[k0 a0] d IH]; simpl; [done|].
  case_decide; simpl; set_solver.
Qed.

Lemma NoDup_dict_set k a d :
  NoDup (dict_keys d) → NoDup (dict_keys (dict_set k a d)).
Proof.
  intros Hd. rewrite dict_keys_set. unfold dict_mem.
  destruct (dict_get k d) eqn:Hg; [done|].
  apply NoDup_app. split_and!; [done| |apply NoDup_singleton].
  intros x Hx ->%list_elem_of_singleton. by apply dict_get_None in Hg.
Qed.

Lemma NoDup_dict_del k d :
  NoDup (dict_keys d) → NoDup (dict_keys (dict_del k d)).
Proof.
  unfold dict_keys. induction d as [|[k0 a0] d IH]; simpl; [done|].
  intros [Hk Hd]%NoDup_cons. case_decide; [done|]. simpl.
  apply NoDup_cons. split; [|auto].
  intros Hin. apply Hk. by apply (dict_keys_del k d).
Qed.
End DictFacts.

(** ** Compose: the merge policy *)

Section ComposeFacts.
Context {V : Type} `{!PyValue V}.
Implicit Types (d u v : tree V) (k : string).

Lemma wf_Dict (items : dict V) :
  wf (Dict items)
  = (bool_decide (NoDup (dict_keys items)) && forallb (λ kv, wf kv.2) items).
Proof.
  simpl. f_equal. induction items as [|[k t] items IH]; simpl; [done|].
  by rewrite IH.
Qed.

Lemma wf_cons k v (rest : dict V) :
  wf (Dict ((k, v) :: rest)) = true →
  (k ∉ dict_keys rest) ∧ wf v = true ∧ wf (Dict rest) = true.
Proof.
  rewrite !wf_Dict. simpl.
  intros [Hn [Hv Hr]%andb_true_iff]%andb_true_iff.
  apply bool_decide_eq_true in Hn. apply NoDup_cons in Hn as [Hk Hn].
  split_and!; [done..|]. apply andb_true_iff. split; [|done].
  by apply bool_decide_eq_true.
Qed.

Lemma _deep_update_cons d k v (rest : dict V) :
  _deep_update d (Dict ((k, v) :: rest)) =
    match v with
    | Dict _ =>
        match d with
        | Dict ditems =>
            r ← _deep_update (default (Dict []) (dict_get k ditems)) v;
            _deep_update (Dict (dict_set k r ditems)) (Dict rest)
        | Leaf _ => Raise AttributeError
        end
    | Leaf _ =>
        match d with
        | Dict ditems => _deep_update (Dict (dict_set k v ditems)) (Dict rest)
        | Leaf _ => Raise TypeError
        end
    end.
Proof. by destruct v, d. Qed.

Lemma deep_merge_cons (ditems : dict V) k v (rest : dict V) :
  deep_merge (Dict ditems) (Dict ((k, v) :: rest)) =
    deep_merge
      (Dict (dict_set k
               match dict_get k ditems, v with
               | Some (Dict existing), Dict _ => deep_merge (Dict existing) v
               | _, _ => v
               end ditems))
      (Dict rest).
Proof. done. Qed.

Lemma compatible_cons (ditems : dict V) k v (rest : dict V) :
  compatible (Dict ditems) (Dict ((k, v) :: rest)) =
    match v, dict_get k ditems with
    | Dict _, Some existing => compatible existing v
    | _, _ => true
    end && compatible (Dict ditems) (Dict rest).
Proof. done. Qed.

Lemma compatible_empty (items : dict V) : compatible (Dict []) (Dict items) = true.
Proof.
  induction items as [|[k v] items IH]; [done|].
  rewrite compatible_cons, IH. by destruct v.
Qed.

Lemma compatible_dict_set k v (ditems rest : dict V) :
  k ∉ dict_keys rest →
  compatible (Dict (dict_set k v ditems)) (Dict rest)
  = compatible (Dict ditems) (Dict rest).
Proof.
  induction rest as [|[k' v'] rest IH]; [done|].
  intros [Hne Hk]%not_elem_of_cons.
  rewrite !compatible_cons, IH, dict_get_set, decide_False by done. done.
Qed.

Lemma bind_Return_l {A B} (a : A) (k : A → outcome B) : Return a ≫= k = k a.
Proof. done. Qed.

(** Merging into the empty dict gives the overlay back. *)
Lemma deep_merge_empty (items : dict V) :
  NoDup (dict_keys items) → deep_merge (Dict []) (Dict items) = Dict items.
Proof.
  intros Hn.
  enough (∀ done, NoDup (dict_keys (done ++ items)) →
            deep_merge (Dict done) (Dict items) = Dict (done ++ items)) as H
    by exact (H [] Hn).
  clear Hn. unfold dict_keys.
  induction items as [|[k v] items IH]; intros done Hn.
  - by rewrite app_nil_r.
  - rewrite deep_merge_cons.
    assert (k ∉ dict_keys done) as Hk.
    { rewrite fmap_app in Hn. apply NoDup_app in Hn as (_ & Hd & _).
      intros Hin. apply (Hd k Hin). by left. }
    rewrite (proj2 (dict_get_None k done) Hk), dict_set_fresh by done.
    rewrite IH; [by rewrite <-app_assoc|]. by rewrite <-app_assoc.
Qed.

(** The code follows the merge policy wherever the policy's case
    distinction and the code's coincide, that is, on a well-formed overlay
    that holds no mapping where the existing tree holds a leaf. *)
Theorem _deep_update_deep_merge u d :
  wf u = true → compatible d u = true →
  _deep_update d u = Return (deep_merge d u).
Proof.
  revert d. induction u as [x|uitems IH] using tree_ind'; intros d Hwf Hc.
  { by destruct d. }
  destruct d as [x|ditems]; [done|]. revert ditems Hc.
  induction uitems as [|[k v] rest IHrest]; intros ditems Hc; [done|].
  apply Forall_cons in IH as [IHv IH]. simpl in IHv.
  apply wf_cons in Hwf as (Hk & Hv & Hrest).
  rewrite compatible_cons in Hc. apply andb_true_iff in Hc as [Hcv Hc].
  rewrite _deep_update_cons, deep_merge_cons.
  destruct v as [x|vitems].
  - destruct (dict_get k ditems) as [[]|];
      by apply IHrest; rewrite ?compatible_dict_set.
  - destruct (dict_get k ditems) as [[x|existing]|] eqn:Hg.
    + done.
    + cbv [from_option id].
      rewrite (IHv (Dict existing)), bind_Return_l by done.
      by apply IHrest; rewrite ?compatible_dict_set.
    + cbv [from_option id].
      rewrite (IHv (Dict [])), bind_Return_l by (done || apply compatible_empty).
      rewrite deep_merge_empty.
      * by apply IHrest; rewrite ?compatible_dict_set.
      * rewrite wf_Dict in Hv. apply andb_true_iff in Hv as [Hn _].
        by apply bool_decide_eq_true in Hn.
Qed.

Lemma compose_config_unfold (self : Preset V) :
  compose_config self =
    c ← data_config self;
    match base_preset self with
    | Some base => b ← compose_config base; _deep_update b c
    | None => Return c
    end.
Proof. by destruct self. Qed.

Lemma composed_unfold (self : Preset V) :
  composed self =
    c ← d_config (data self);
    match base_preset self with
    | None => Some c
    | Some base => b ← composed base; Some (deep_merge b c)
    end.
Proof. by destruct self. Qed.

Lemma mergeable_unfold (self : Preset V) :
  mergeable self =
    match d_config (data self), base_preset self with
    | Some _, None => true
    | Some c, Some base =>
        mergeable base
        && match composed base with
           | Some b => wf c && compatible b c
           | None => false
           end
    | None, _ => false
    end.
Proof. by destruct self. Qed.

(** On a mergeable chain [compose_config] returns, and what it returns
    is the composition the specification describes: the base composed
    first, the own delta merged on top, the root's config as it is. *)
Theorem compose_config_composed (self : Preset V) :
  mergeable self = true →
  ∃ t, composed self = Some t ∧ compose_config self = Return t.
Proof.
  induction self as [p Hb|p base Hb IH] using chain_ind;
    rewrite mergeable_unfold, composed_unfold, compose_config_unfold, Hb;
    unfold data_config; destruct (d_config (data p)) as [c|]; try done.
  - intros _. by exists c.
  - intros [Hm Hc]%andb_true_iff. destruct (IH Hm) as (b & Hcb & Hb').
    rewrite Hcb in Hc |- *. apply andb_true_iff in Hc as [Hwf Hc].
    exists (deep_merge b c). split; [done|].
    rewrite bind_Return_l, Hb', bind_Return_l.
    by apply _deep_update_deep_merge.
Qed.
End ComposeFacts.

(** ** Paths *)

Lemma slash_free_String a s :
  slash_free (String a s) = true ↔ a ≠ slash ∧ slash_free s = true.
Proof.
  unfold slash_free. rewrite !bool_decide_eq_true. simpl.
  rewrite not_elem_of_cons. naive_solver.
Qed.

Lemma split_slash_free k : slash_free k = true → split_slash k = [k].
Proof.
  induction k as [|a k IH]; [done|].
  intros [Ha Hk]%slash_free_String. simpl.
  by rewrite decide_False, IH.
Qed.

Lemma split_slash_append k s :
  slash_free k = true → split_slash (k +:+ "/" +:+ s) = k :: split_slash s.
Proof.
  induction k as [|a k IH]; [done|].
  intros [Ha Hk]%slash_free_String. rewrite append_cons. simpl.
  by rewrite decide_False, IH.
Qed.

Lemma join_slash_cons k k' ks :
  join_slash (k :: k' :: ks) = k +:+ "/" +:+ join_slash (k' :: ks).
Proof. done. Qed.

(** A sequence of slash-free keys can be read off its joined path. *)
Lemma split_slash_join ks :
  ks ≠ [] → Forall (λ k, slash_free k = true) ks →
  split_slash (join_slash ks) = ks.
Proof.
  induction ks as [|k [|k' ks] IH]; [done| |]; intros _ [Hk Hks]%Forall_cons.
  - by apply split_slash_free.
  - rewrite join_slash_cons, split_slash_append by done.
    by rewrite IH.
Qed.

Lemma join_slash_inj ks ks' :
  ks ≠ [] → ks' ≠ [] →
  Forall (λ k, slash_free k = true) ks → Forall (λ k, slash_free k = true) ks' →
  join_slash ks = join_slash ks' → ks = ks'.
Proof.
  intros ???? Heq.
  by rewrite <-(split_slash_join ks), <-(split_slash_join ks'), Heq.
Qed.

(** ** Well-formed trees, leaves and flattening *)

Section TreeFacts.
Context {V : Type}.
Implicit Types (t c : tree V) (items : dict V) (k : string) (ks p : list string).

Lemma wf_Dict_iff items :
  wf (Dict items) = true
  ↔ NoDup (dict_keys items) ∧ ∀ k t, (k, t) ∈ items → wf t = true.
Proof.
  simpl. rewrite andb_true_iff, bool_decide_eq_true.
  apply and_iff_compat_l.
  induction items as [|[k0 t0] items IH].
  - split; [|done]. intros _ k t Hin. by apply elem_of_nil in Hin.
  - rewrite andb_true_iff, IH. split.
    + intros [H0 Hr] k t [[= -> ->]|Hin]%elem_of_cons; eauto.
    + intros H. split; [apply (H k0); by left|].
      intros k t Hin. apply (H k). by right.
Qed.

Lemma slash_free_keys_Dict_iff items :
  slash_free_keys (Dict items) = true
  ↔ ∀ k t, (k, t) ∈ items → slash_free k = true ∧ slash_free_keys t = true.
Proof.
  simpl. induction items as [|[k0 t0] items IH].
  - split; [|done]. intros _ k t Hin. by apply elem_of_nil in Hin.
  - rewrite !andb_true_iff, IH. split.
    + intros [[H0 H1] Hr] k t [[= -> ->]|Hin]%elem_of_cons; eauto.
    + intros H. split; [apply (H k0 t0); by left|].
      intros k t Hin. apply (H k). by right.
Qed.

Lemma elem_of_dict_set k t items k' t' :
  (k', t') ∈ dict_set k t items → (k', t') = (k, t) ∨ (k', t') ∈ items.
Proof.
  induction items as [|[k0 t0] items IH]; simpl.
  - intros ->%list_elem_of_singleton. by left.
  - case_decide; subst.
    + intros [->|?]%elem_of_cons; [by left|]. right. by right.
    + intros [->|Hin]%elem_of_cons; [right; by left|].
      destruct (IH Hin); [by left|]. right. by right.
Qed.

Lemma elem_of_dict_del k items k' t' :
  (k', t') ∈ dict_del k items → (k', t') ∈ items.
Proof.
  induction items as [|[k0 t0] items IH]; simpl; [done|].
  case_decide; subst.
  - intros ?. by right.
  - intros [->|Hin]%elem_of_cons; [by left|]. right. auto.
Qed.

Lemma wf_dict_set k t items :
  wf (Dict items) = true → wf t = true → wf (Dict (dict_set k t items)) = true.
Proof.
  rewrite !wf_Dict_iff. intros [Hn Hall] Ht. split.
  - by apply NoDup_dict_set.
  - intros k' t' [[= -> ->]|Hin]%elem_of_dict_set; eauto.
Qed.

Lemma wf_dict_del k items :
  wf (Dict items) = true → wf (Dict (dict_del k items)) = true.
Proof.
  rewrite !wf_Dict_iff. intros [Hn Hall]. split.
  - by apply NoDup_dict_del.
  - intros k' t' Hin%elem_of_dict_del. eauto.
Qed.

Lemma wf_dict_get k t items :
  wf (Dict items) = true → dict_get k items = Some t → wf t = true.
Proof.
  rewrite wf_Dict_iff. intros [_ Hall] Hg%dict_get_Some_elem. eauto.
Qed.

Lemma slash_free_keys_dict_set k t items :
  slash_free_keys (Dict items) = true → slash_free k = true →
  slash_free_keys t = true →
  slash_free_keys (Dict (dict_set k t items)) = true.
Proof.
  rewrite !slash_free_keys_Dict_iff. intros Hall Hk Ht k' t'.
  intros [[= -> ->]|Hin]%elem_of_dict_set; eauto.
Qed.

Lemma slash_free_keys_dict_del k items :
  slash_free_keys (Dict items) = true →
  slash_free_keys (Dict (dict_del k items)) = true.
Proof.
  rewrite !slash_free_keys_Dict_iff. intros Hall k' t' Hin%elem_of_dict_del.
  eauto.
Qed.

Lemma slash_free_keys_dict_get k t items :
  slash_free_keys (Dict items) = true → dict_get k items = Some t →
  slash_free k = true ∧ slash_free_keys t = true.
Proof.
  rewrite slash_free_keys_Dict_iff. intros Hall Hg%dict_get_Some_elem. eauto.
Qed.
End TreeFacts.

(** ** Deleting along a path *)

Section PathFacts.
Context {V : Type} `{!PyValue V}.
Implicit Types (t c sub : tree V) (items : dict V) (k : string)
  (ks p r : list string).

Lemma descend_app p r t : descend (p ++ r) t = descend p t ≫= descend r.
Proof.
  revert t. induction p as [|k p IH]; intros t; [done|]. simpl.
  destruct (subscript t k) as [sub|e]; [|done].
  rewrite !bind_Return_l. apply IH.
Qed.

Lemma subscript_Return t k sub :
  subscript t k = Return sub ↔ ∃ items, t = Dict items ∧ dict_get k items = Some sub.
Proof.
  destruct t as [v|items]; simpl.
  - split; [done|]. by intros (? & ? & ?).
  - destruct (dict_get k items) as [t'|] eqn:Hg.
    + split; [intros [= ->]; eauto|]. intros (? & [= <-] & ?). congruence.
    + split; [done|]. intros (? & [= <-] & ?). congruence.
Qed.

Lemma leaf_at_descend p r t sub :
  descend p t = Return sub → leaf_at (p ++ r) t = leaf_at r sub.
Proof.
  revert t. induction p as [|k p IH]; intros t; simpl.
  - by intros [= ->].
  - destruct (subscript t k) as [t'|e] eqn:Hs; [|done].
    rewrite bind_Return_l. apply subscript_Return in Hs as (items & -> & Hg).
    rewrite Hg. apply IH.
Qed.

Lemma leaf_at_snoc p k t v :
  leaf_at (p ++ [k]) t = Some v →
  ∃ items, descend p t = Return (Dict items) ∧ dict_get k items = Some (Leaf v).
Proof.
  revert t. induction p as [|k' p IH]; intros t; simpl.
  - destruct t as [|items]; [done|].
    destruct (dict_get k items) as [[x|]|] eqn:Hg; try done.
    intros [= ->]. eauto.
  - destruct t as [|items]; [done|]. simpl.
    destruct (dict_get k' items) as [t'|]; [|done].
    rewrite bind_Return_l. apply IH.
Qed.

Lemma leaf_at_slash_free ks t v :
  slash_free_keys t = true → leaf_at ks t = Some v →
  Forall (λ k, slash_free k = true) ks.
Proof.
  revert t. induction ks as [|k ks IH]; intros t Hsf; [done|].
  destruct t as [|items]; [done|]. simpl.
  destruct (dict_get k items) as [t'|] eqn:Hg; [|done].
  destruct (slash_free_keys_dict_get _ _ _ Hsf Hg). intros ?.
  apply Forall_cons. eauto.
Qed.

Lemma del_path_last k items :
  del_path [k] (Dict items) =
    if dict_mem k items then Return (Dict (dict_del k items))
    else Raise (KeyError k).
Proof. done. Qed.

Lemma del_path_cons k ks items :
  ks ≠ [] →
  del_path (k :: ks) (Dict items) =
    sub ← subscript (Dict items) k;
    sub' ← del_path ks sub;
    Return (Dict (dict_set k sub' items)).
Proof. by destruct ks. Qed.

(** Deleting the entry [k] of the dict reached along [p]: the call
    returns, the dict at [p] has lost [k], every leaf below [p/k] is
    gone and every other leaf is where it was. *)
Lemma del_path_spec p k t items :
  wf t = true →
  descend p t = Return (Dict items) → dict_mem k items = true →
  ∃ t', del_path (p ++ [k]) t = Return t'
        ∧ wf t' = true
        ∧ (slash_free_keys t = true → slash_free_keys t' = true)
        ∧ descend p t' = Return (Dict (dict_del k items))
        ∧ (∀ r, leaf_at (p ++ k :: r) t' = None)
        ∧ (∀ ks, ¬ (p ++ [k]) `prefix_of` ks → leaf_at ks t' = leaf_at ks t).
Proof.
  revert t. induction p as [|k1 p IH]; intros t Hwf Hd Hm.
  - injection Hd as ->. exists (Dict (dict_del k items)).
    apply wf_Dict_iff in Hwf as Hwf'. destruct Hwf' as [Hn _].
    simpl app. rewrite del_path_last, Hm. split_and!; try done.
    + by apply wf_dict_del.
    + by apply slash_free_keys_dict_del.
    + intros r. simpl. by rewrite dict_get_del, decide_True.
    + intros [|k' ks] Hp; [done|]. simpl. rewrite dict_get_del by done.
      rewrite decide_False; [done|]. intros ->. apply Hp.
      by apply prefix_cons, prefix_nil.
  - simpl in Hd. destruct (subscript t k1) as [sub|e] eqn:Hs; [|done].
    rewrite bind_Return_l in Hd.
    apply subscript_Return in Hs as (titems & -> & Hg).
    destruct (IH sub) as (sub' & Hdel & Hwf' & Hsf' & Hd' & Ha & Hb);
      [by eapply wf_dict_get|done..|].
    exists (Dict (dict_set k1 sub' titems)).
    change ((k1 :: p) ++ [k]) with (k1 :: (p ++ [k])).
    rewrite del_path_cons by (by destruct p). simpl subscript. rewrite Hg.
    rewrite bind_Return_l, Hdel, bind_Return_l. split_and!; try done.
    + by apply wf_dict_set.
    + intros Hsf. destruct (slash_free_keys_dict_get _ _ _ Hsf Hg).
      apply slash_free_keys_dict_set; auto.
    + simpl. by rewrite dict_get_set, decide_True, bind_Return_l.
    + intros r. simpl. by rewrite dict_get_set, decide_True.
    + intros [|k' ks] Hp; [done|]. simpl. rewrite dict_get_set.
      case_decide as Hk; [subst k'|done]. rewrite Hg. apply Hb.
      intros Hp'. apply Hp. by apply prefix_cons.
Qed.

Lemma leaf_at_empty_dict r : leaf_at r (Dict (V:=V) []) = None.
Proof. by destruct r. Qed.

Lemma prune_cons last_key rinit t :
  prune (last_key :: rinit) t =
    config_block ← descend (rev rinit) t;
    item ← subscript config_block last_key;
    n ← len item;
    if (n =? 0)%nat then
      config' ← del_path (rev rinit ++ [last_key]) t; prune rinit config'
    else Return t.
Proof. done. Qed.

(** The pruning loop returns, and moves no leaf. *)
Lemma prune_spec rkeys t items :
  wf t = true → descend (rev rkeys) t = Return (Dict items) →
  ∃ t', prune rkeys t = Return t'
        ∧ wf t' = true
        ∧ (slash_free_keys t = true → slash_free_keys t' = true)
        ∧ (∀ ks, leaf_at ks t' = leaf_at ks t).
Proof.
  revert t items. induction rkeys as [|last_key rinit IH]; intros t items Hwf Hd.
  { by exists t. }
  simpl rev in Hd. rewrite descend_app in Hd.
  destruct (descend (rev rinit) t) as [block|e] eqn:Hb; [|done].
  rewrite bind_Return_l in Hd. simpl in Hd.
  destruct (subscript block last_key) as [item|e] eqn:Hs; [|done].
  injection Hd as ->.
  apply subscript_Return in Hs as Hs'. destruct Hs' as (bitems & -> & Hg).
  rewrite prune_cons, Hb, bind_Return_l, Hs, bind_Return_l. simpl len.
  rewrite bind_Return_l.
  destruct items as [|kv items]; simpl Nat.eqb; [|by exists t].
  destruct (del_path_spec (rev rinit) last_key t bitems)
    as (t1 & Hdel & Hwf1 & Hsf1 & Hd1 & Ha & Hb'); [done..| |].
  { unfold dict_mem. by rewrite Hg. }
  rewrite Hdel, bind_Return_l.
  destruct (IH t1 _ Hwf1 Hd1) as (t' & Hpr & Hwf' & Hsf' & Hl).
  exists t'. split_and!; [done..|auto|].
  intros ks. rewrite Hl.
  destruct (decide ((rev rinit ++ [last_key]) `prefix_of` ks)) as [[r ->]|Hn];
    [|by apply Hb'].
  rewrite <-app_assoc. simpl app. rewrite Ha.
  change (rev rinit ++ last_key :: r) with (rev rinit ++ [last_key] ++ r).
  rewrite app_assoc. symmetry.
  rewrite (leaf_at_descend _ r t (Dict [])); [apply leaf_at_empty_dict|].
  rewrite descend_app, Hb, bind_Return_l. simpl. by rewrite Hg.
Qed.
End PathFacts.

(** ** Flattening and leaves *)

Section FlattenFacts.
Context {V : Type}.
Implicit Types (t c : tree V) (items : dict V) (k q : string)
  (ks path : list string) (v : V).

Lemma flatten_tree_cons path k t items :
  flatten_tree path (Dict ((k, t) :: items))
  = flatten_tree (path ++ [k]) t ++ flatten_tree path (Dict items).
Proof. done. Qed.

Lemma leaf_at_Dict_cons ks k0 t0 items :
  k0 ∉ dict_keys items →
  is_Some (leaf_at ks (Dict items)) →
  leaf_at ks (Dict ((k0, t0) :: items)) = leaf_at ks (Dict items).
Proof.
  intros Hk. destruct ks as [|k ks]; [done|]. simpl.
  destruct (dict_get k items) as [t'|] eqn:Hg; [|by intros [? ?]].
  intros _. rewrite decide_False; [done|]. intros ->.
  apply dict_get_None in Hk. congruence.
Qed.

(** Every flattened entry is a leaf of the tree, under its joined path. *)
Lemma elem_of_flatten_tree_1 t path q v :
  wf t = true → (q, v) ∈ flatten_tree path t →
  ∃ ks, q = join_slash (path ++ ks) ∧ leaf_at ks t = Some v.
Proof.
  revert path. induction t as [x|items IH] using tree_ind'; intros path Hwf.
  - intros [= -> ->]%list_elem_of_singleton. exists []. by rewrite app_nil_r.
  - revert Hwf. induction items as [|[k0 t0] items IHitems]; intros Hwf.
    { intros Hin. by apply elem_of_nil in Hin. }
    apply Forall_cons in IH as [IH0 IH]. simpl in IH0.
    apply wf_cons in Hwf as (Hk & Hwf0 & Hwf).
    rewrite flatten_tree_cons. intros [Hin|Hin]%elem_of_app.
    + destruct (IH0 _ Hwf0 Hin) as (ks & -> & Hl).
      exists (k0 :: ks). split; [by rewrite <-app_assoc|].
      simpl. by rewrite decide_True.
    + destruct (IHitems IH Hwf Hin) as (ks & -> & Hl).
      exists ks. split; [done|]. by rewrite leaf_at_Dict_cons.
Qed.

(** Every leaf of the tree is a flattened entry. *)
Lemma elem_of_flatten_tree_2 t path ks v :
  leaf_at ks t = Some v → (join_slash (path ++ ks), v) ∈ flatten_tree path t.
Proof.
  revert path ks. induction t as [x|items IH] using tree_ind'; intros path ks.
  - destruct ks; [|done]. intros [= ->]. rewrite app_nil_r. by left.
  - destruct ks as [|k ks]; [done|]. simpl leaf_at.
    induction items as [|[k0 t0] items IHitems]; [done|].
    apply Forall_cons in IH as [IH0 IH]. simpl in IH0.
    rewrite flatten_tree_cons, elem_of_app. simpl dict_get.
    case_decide as Hk; [subst k0|].
    + intros Hl. left. specialize (IH0 (path ++ [k]) ks Hl).
      by rewrite <-app_assoc in IH0.
    + intros Hl. right. by apply IHitems.
Qed.

Lemma leaf_at_Dict_nonempty ks items v :
  leaf_at ks (Dict items) = Some v → ks ≠ [].
Proof. by destruct ks. Qed.

Lemma leaf_at_key ks k items v :
  leaf_at (k :: ks) (Dict items) = Some v → k ∈ dict_keys items.
Proof.
  simpl. destruct (dict_get k items) as [t'|] eqn:Hg; [|done]. intros _.
  apply dict_get_Some_elem in Hg. apply list_elem_of_fmap. by exists (k, t').
Qed.

(** Distinct leaves have distinct paths. *)
Lemma NoDup_flatten_tree t path :
  wf t = true → slash_free_keys t = true →
  Forall (λ k, slash_free k = true) path →
  NoDup (flatten_tree path t).*1.
Proof.
  revert path. induction t as [x|items IH] using tree_ind';
    intros path Hwf Hsf Hpath.
  { apply NoDup_singleton. }
  revert Hwf Hsf.
  induction items as [|[k0 t0] items IHitems]; intros Hwf Hsf.
  { apply NoDup_nil_2. }
  apply Forall_cons in IH as [IH0 IH]. simpl in IH0.
  pose proof Hwf as (Hk & Hwf0 & Hwfr)%wf_cons.
  assert (slash_free k0 = true ∧ slash_free_keys t0 = true
          ∧ slash_free_keys (Dict items) = true) as (Hk0 & Hsf0 & Hsfr).
  { rewrite slash_free_keys_Dict_iff in Hsf. rewrite slash_free_keys_Dict_iff.
    destruct (Hsf k0 t0) as [? ?]; [by left|]. split_and!; [done..|].
    intros k t Hin. apply Hsf. by right. }
  rewrite flatten_tree_cons, fmap_app. apply NoDup_app. split_and!.
  - apply IH0; [done..|].
    apply Forall_app. split; [done|]. by apply Forall_singleton.
  - intros q [[q1 v1] [-> Hin1]]%list_elem_of_fmap
             [[q2 v2] [Heq Hin2]]%list_elem_of_fmap.
    simpl in Heq. subst q2.
    apply elem_of_flatten_tree_1 in Hin1 as (ks1 & Hq1 & Hl1); [|done].
    apply elem_of_flatten_tree_1 in Hin2 as (ks2 & Hq2 & Hl2); [|done].
    rewrite Hq2, <-app_assoc in Hq1. simpl in Hq1.
    destruct ks2 as [|k2 ks2]; [done|].
    apply leaf_at_key in Hl2 as Hk2.
    apply leaf_at_slash_free in Hl1; [|done].
    apply leaf_at_slash_free in Hl2; [|done].
    apply join_slash_inj in Hq1.
    + apply app_inv_head in Hq1. injection Hq1 as -> _. done.
    + by destruct path.
    + by destruct path.
    + by apply Forall_app.
    + apply Forall_app. split; [done|]. by apply Forall_cons.
  - by apply IHitems.
Qed.

Lemma fold_dict_set {A} (l acc : list (string * A)) :
  NoDup (dict_keys (acc ++ l)) →
  fold_left (λ acc kv, dict_set kv.1 kv.2 acc) l acc = acc ++ l.
Proof.
  revert acc. induction l as [|[k a] l IH]; intros acc Hn; simpl.
  - by rewrite app_nil_r.
  - assert (k ∉ dict_keys acc) as Hk.
    { unfold dict_keys in *. rewrite fmap_app in Hn.
      apply NoDup_app in Hn as (_ & Hd & _).
      intros Hin. apply (Hd k Hin). by left. }
    rewrite dict_set_fresh by done.
    rewrite IH; by rewrite <-app_assoc.
Qed.

(** On a tree with distinct, slash-free keys the flattened mapping lists
    the leaves as the walk meets them. *)
Lemma flatten_flatten_tree t :
  wf t = true → slash_free_keys t = true →
  flatten (mkConfigurationBlock t) = flatten_tree [] t.
Proof.
  intros Hwf Hsf. unfold flatten.
  change (cb_config (mkConfigurationBlock t)) with t.
  rewrite fold_dict_set; [done|].
  change (NoDup (flatten_tree [] t).*1).
  by apply NoDup_flatten_tree.
Qed.

(** [flatten] maps a joined path to the leaf at the path. *)
Lemma dict_get_flatten t q v :
  wf t = true → slash_free_keys t = true →
  dict_get q (flatten (mkConfigurationBlock t)) = Some v
  ↔ ∃ ks, q = join_slash ks ∧ leaf_at ks t = Some v.
Proof.
  intros Hwf Hsf. rewrite flatten_flatten_tree by done. split.
  - intros Hin%dict_get_Some_elem.
    by apply elem_of_flatten_tree_1 in Hin.
  - intros (ks & -> & Hl). apply dict_get_elem.
    + by apply NoDup_flatten_tree.
    + by apply (elem_of_flatten_tree_2 _ []).
Qed.

Lemma dict_get_flatten_leaf t ks v :
  wf t = true → slash_free_keys t = true →
  leaf_at ks t = Some v →
  dict_get (join_slash ks) (flatten (mkConfigurationBlock t)) = Some v.
Proof. intros ???. apply dict_get_flatten; eauto. Qed.
End FlattenFacts.

(** ** Diff *)

Section DiffFacts.
Context {V : Type} `{!PyValue V}.
Implicit Types (t c cur : tree V) (items : dict V) (k q : string)
  (ks p : list string) (v : V) (old new : list (string * V)).

Lemma leaf_at_descend_leaf ks t v :
  leaf_at ks t = Some v → descend ks t = Return (Leaf v).
Proof.
  revert t. induction ks as [|k ks IH]; intros [x|items]; simpl; try done.
  - by intros [= ->].
  - destruct (dict_get k items) as [t'|]; [|done]. rewrite bind_Return_l.
    apply IH.
Qed.

Lemma leaf_at_below_leaf ks r t v :
  leaf_at ks t = Some v → r ≠ [] → leaf_at (ks ++ r) t = None.
Proof.
  intros Hl%leaf_at_descend_leaf Hr.
  rewrite (leaf_at_descend _ r _ _ Hl). by destruct r.
Qed.

Lemma bool_decide_elem_of_cons_ne (x y : string) (l : list string) :
  x ≠ y → bool_decide (x ∈ y :: l) = bool_decide (x ∈ l).
Proof.
  intros Hne. apply bool_decide_ext. rewrite elem_of_cons.
  split; [by intros [?|?]|by right].
Qed.

Lemma diff_step_keep old new cur q :
  redundant old new q = false → is_Some (dict_get q new) →
  diff_step old new cur q = Return cur.
Proof.
  unfold redundant, diff_step. intros Hr [n Hn]. rewrite Hn in Hr |- *.
  destruct (dict_get q old); [|done]. by rewrite Hr.
Qed.

Lemma diff_step_strip old new cur q :
  redundant old new q = true →
  diff_step old new cur q =
    config' ← del_path (split_slash q) cur;
    prune (rev (removelast (split_slash q))) config'.
Proof.
  unfold redundant, diff_step. intros Hr.
  destruct (dict_get q old); [|done].
  destruct (dict_get q new); [|done]. by rewrite Hr.
Qed.

Lemma diff_step_spec old c cur seen q :
  let new := flatten (mkConfigurationBlock c) in
  (∃ items, c = Dict items) → wf c = true → slash_free_keys c = true →
  wf cur = true → slash_free_keys cur = true →
  q ∈ dict_keys new → q ∉ seen →
  diff_inv old new c seen cur →
  ∃ cur', diff_step old new cur q = Return cur'
          ∧ wf cur' = true ∧ slash_free_keys cur' = true
          ∧ diff_inv old new c (q :: seen) cur'.
Proof.
  intros new [items ->] Hwf Hsf Hwfc Hsfc Hq Hseen Hinv.
  apply list_elem_of_fmap in Hq as ([q' v] & Heq & Hin). simpl in Heq. subst q.
  assert (dict_get q' new = Some v) as Hnew.
  { apply dict_get_elem; [|done]. unfold new.
    rewrite flatten_flatten_tree by done. by apply NoDup_flatten_tree. }
  apply dict_get_flatten in Hnew as Hks; [|done..].
  destruct Hks as (ks0 & -> & Hl0).
  pose proof (leaf_at_Dict_nonempty _ _ _ Hl0) as Hne.
  pose proof (leaf_at_slash_free _ _ _ Hsf Hl0) as Hfree.
  assert (∀ ks, join_slash ks = join_slash ks0 → ks ≠ ks0 →
                leaf_at ks (Dict items) = None) as Hother.
  { intros ks Heq Hneq. destruct (leaf_at ks (Dict items)) as [v'|] eqn:Hl; [|done].
    destruct Hneq. apply join_slash_inj; [|done| |done..].
    - exact (leaf_at_Dict_nonempty _ _ _ Hl).
    - exact (leaf_at_slash_free _ _ _ Hsf Hl). }
  destruct (redundant old new (join_slash ks0)) eqn:Hred.
  - rewrite diff_step_strip, split_slash_join by done.
    assert (leaf_at ks0 cur = Some v) as Hcur.
    { rewrite Hinv, bool_decide_eq_false_2 by done. done. }
    rewrite (app_removelast_last "" Hne) in Hcur.
    apply leaf_at_snoc in Hcur as (bitems & Hd & Hg).
    destruct (del_path_spec (removelast ks0) (List.last ks0 "") cur bitems)
      as (cur1 & Hdel & Hwf1 & Hsf1 & Hd1 & Ha & Hb); [done..| |].
    { unfold dict_mem. by rewrite Hg. }
    rewrite <-(app_removelast_last "" Hne) in Hdel, Hb. rewrite Hdel, bind_Return_l.
    destruct (prune_spec (rev (removelast ks0)) cur1 (dict_del (List.last ks0 "") bitems))
      as (cur2 & Hpr & Hwf2 & Hsf2 & Hl2); [done|by rewrite rev_involutive|].
    exists cur2. split_and!; [done..|auto|]. intros ks. rewrite Hl2.
    destruct (decide (ks0 `prefix_of` ks)) as [[r ->]|Hn].
    + rewrite (app_removelast_last "" Hne) at 1. rewrite <-app_assoc. simpl app.
      rewrite Ha. destruct r as [|k r].
      * rewrite app_nil_r, Hred, bool_decide_eq_true_2; [done|by left].
      * rewrite (leaf_at_below_leaf ks0 (k :: r) _ v) by done.
        by case_match.
    + rewrite Hb, Hinv by done.
      destruct (decide (join_slash ks = join_slash ks0)) as [Heq|Hneq].
      * rewrite Hother; [by repeat case_match|done|]. intros ->. by apply Hn.
      * by rewrite bool_decide_elem_of_cons_ne.
  - rewrite diff_step_keep by (done || by rewrite Hnew).
    exists cur. split_and!; [done..|]. intros ks. rewrite Hinv.
    destruct (decide (join_slash ks = join_slash ks0)) as [Heq|Hneq].
    + by rewrite Heq, Hred, !andb_false_r.
    + by rewrite bool_decide_elem_of_cons_ne.
Qed.

Lemma diff_loop_cons old new q todo cur :
  diff_loop old new (q :: todo) cur =
    config' ← diff_step old new cur q; diff_loop old new todo config'.
Proof. done. Qed.

Lemma diff_loop_spec old c todo cur seen :
  let new := flatten (mkConfigurationBlock c) in
  (∃ items, c = Dict items) → wf c = true → slash_free_keys c = true →
  wf cur = true → slash_free_keys cur = true →
  NoDup todo → (∀ q, q ∈ todo → q ∈ dict_keys new ∧ q ∉ seen) →
  diff_inv old new c seen cur →
  ∃ c', diff_loop old new todo cur = Return c'
        ∧ wf c' = true ∧ slash_free_keys c' = true
        ∧ diff_inv old new c (rev todo ++ seen) c'.
Proof.
  intros new. subst new. intros Hc Hwf Hsf. revert cur seen.
  induction todo as [|q todo IH]; intros cur seen Hwfc Hsfc Hn Htodo Hinv.
  { by exists cur. }
  apply NoDup_cons in Hn as [Hq Hn].
  destruct (diff_step_spec old c cur seen q) as (cur1 & Hs & Hwf1 & Hsf1 & Hinv1);
    [done..|apply Htodo; by left|apply Htodo; by left|done|].
  rewrite diff_loop_cons, Hs, bind_Return_l.
  destruct (IH cur1 (q :: seen)) as (c' & Hloop & Hwf' & Hsf' & Hinv');
    [done..| |done|].
  { intros q' Hq'. split; [apply Htodo; by right|].
    apply not_elem_of_cons. split; [by intros ->|]. apply Htodo. by right. }
  exists c'. split_and!; [done..|].
  simpl rev. by rewrite <-app_assoc.
Qed.

Lemma elem_of_dict_keys_flatten t ks v :
  wf t = true → slash_free_keys t = true → leaf_at ks t = Some v →
  join_slash ks ∈ dict_keys (flatten (mkConfigurationBlock t)).
Proof.
  intros Hwf Hsf Hl. apply list_elem_of_fmap. exists (join_slash ks, v).
  split; [done|]. rewrite flatten_flatten_tree by done.
  by apply (elem_of_flatten_tree_2 _ []).
Qed.

(** What [diff_config] does to a candidate with distinct, slash-free
    keys: it returns, and the result keeps exactly the leaves of the
    candidate that the preset's own flattened config does not hold with
    an equal value. *)
Theorem diff_config_spec (self : Preset V) cb items :
  config self = Some cb →
  wf (Dict items) = true → slash_free_keys (Dict items) = true →
  ∃ c', diff_config self (Dict items) = Return c'
        ∧ wf c' = true ∧ slash_free_keys c' = true
        ∧ ∀ ks, leaf_at ks c' =
                  match leaf_at ks (Dict items) with
                  | Some v =>
                      match dict_get (join_slash ks) (flatten cb) with
                      | Some o => if py_eq o v then None else Some v
                      | None => Some v
                      end
                  | None => None
                  end.
Proof.
  intros Hcb Hwf Hsf. unfold diff_config, config_flatten. rewrite Hcb, bind_Return_l.
  destruct (diff_loop_spec (flatten cb) (Dict items)
              (dict_keys (flatten (mkConfigurationBlock (Dict items))))
              (Dict items) [])
    as (c' & Hloop & Hwf' & Hsf' & Hinv); eauto.
  - rewrite flatten_flatten_tree by done. by apply NoDup_flatten_tree.
  - intros q Hq. split; [done|]. apply not_elem_of_nil.
  - intros ks. by rewrite bool_decide_eq_false_2 by apply not_elem_of_nil.
  - exists c'. split_and!; [done..|]. intros ks. rewrite Hinv.
    destruct (leaf_at ks (Dict items)) as [v|] eqn:Hl; [|by case_match].
    rewrite app_nil_r, bool_decide_eq_true_2.
    2:{ apply list_elem_of_In, (proj1 (in_rev _ _)), list_elem_of_In.
        by eapply elem_of_dict_keys_flatten. }
    unfold redundant. rewrite (dict_get_flatten_leaf _ _ _ Hwf Hsf Hl).
    by destruct (dict_get _ (flatten cb)).
Qed.

End DiffFacts.


(** ** Compose, then diff *)

Section RoundTripFacts.
Context {V : Type} `{!PyValue V}.
Implicit Types (d u t : tree V) (items ditems uitems : dict V) (k : string)
  (ks : list string) (v : V).

(** The entries of a merged dict. *)
Lemma deep_merge_lookup ditems uitems :
  NoDup (dict_keys uitems) →
  ∃ r, deep_merge (Dict ditems) (Dict uitems) = Dict r
       ∧ ∀ k, dict_get k r =
                match dict_get k uitems with
                | Some v =>
                    Some match dict_get k ditems, v with
                         | Some (Dict e), Dict _ => deep_merge (Dict e) v
                         | _, _ => v
                         end
                | None => dict_get k ditems
                end.
Proof.
  revert ditems. induction uitems as [|[k0 v0] rest IH]; intros ditems Hn.
  { by exists ditems. }
  apply NoDup_cons in Hn as [Hk0 Hn]. rewrite deep_merge_cons.
  destruct (IH (dict_set k0
                  match dict_get k0 ditems, v0 with
                  | Some (Dict e), Dict _ => deep_merge (Dict e) v0
                  | _, _ => v0
                  end ditems) Hn) as (r & -> & Hr).
  exists r. split; [done|]. intros k. rewrite Hr, dict_get_set. simpl dict_get.
  destruct (decide (k = k0)) as [->|Hne].
  - by rewrite (proj2 (dict_get_None k0 rest) Hk0).
  - done.
Qed.

Lemma wf_deep_merge d u : wf d = true → wf u = true → wf (deep_merge d u) = true.
Proof.
  revert d. induction u as [x|uitems IH] using tree_ind'; intros d Hd Hu.
  { by destruct d. }
  destruct d as [x|ditems]; [done|]. revert ditems Hd.
  induction uitems as [|[k v] rest IHrest]; intros ditems Hd; [done|].
  apply Forall_cons in IH as [IHv IH]. simpl in IHv.
  apply wf_cons in Hu as (Hk & Hv & Hrest).
  rewrite deep_merge_cons. apply IHrest; [done..|].
  apply wf_dict_set; [done|].
  destruct (dict_get k ditems) as [[x|e]|] eqn:Hg; try done.
  destruct v as [x|vitems]; [done|]. apply IHv; [|done].
  by eapply wf_dict_get.
Qed.

Lemma slash_free_keys_cons k t (rest : dict V) :
  slash_free_keys (Dict ((k, t) :: rest)) = true →
  slash_free k = true ∧ slash_free_keys t = true
  ∧ slash_free_keys (Dict rest) = true.
Proof.
  rewrite !slash_free_keys_Dict_iff. intros H.
  destruct (H k t) as [? ?]; [by left|]. split_and!; [done..|].
  intros k' t' Hin. apply H. by right.
Qed.

Lemma slash_free_keys_deep_merge d u :
  slash_free_keys d = true → slash_free_keys u = true →
  slash_free_keys (deep_merge d u) = true.
Proof.
  revert d. induction u as [x|uitems IH] using tree_ind'; intros d Hd Hu.
  { by destruct d. }
  destruct d as [x|ditems]; [done|]. revert ditems Hd.
  induction uitems as [|[k v] rest IHrest]; intros ditems Hd; [done|].
  apply Forall_cons in IH as [IHv IH]. simpl in IHv.
  apply slash_free_keys_cons in Hu as (Hk & Hv & Hrest).
  rewrite deep_merge_cons. apply IHrest; [done..|].
  apply slash_free_keys_dict_set; [done..|].
  destruct (dict_get k ditems) as [[x|e]|] eqn:Hg; try done.
  destruct v as [x|vitems]; [done|]. apply IHv; [|done].
  by eapply slash_free_keys_dict_get.
Qed.

Lemma compatible_lookup ditems uitems k vitems :
  compatible (Dict ditems) (Dict uitems) = true →
  dict_get k uitems = Some (Dict vitems) →
  match dict_get k ditems with
  | Some e => compatible e (Dict vitems) = true
  | None => True
  end.
Proof.
  induction uitems as [|[k0 v0] rest IH]; [done|].
  rewrite compatible_cons. intros [H0 Hr]%andb_true_iff. simpl dict_get.
  case_decide as Hk; [subst k0|by apply IH].
  intros [= ->]. by destruct (dict_get k ditems).
Qed.

(** The leaves of a merged tree: those of the overlay, and those of the
    existing tree that the overlay neither redefines nor shadows. *)
Lemma leaf_at_deep_merge u d ks :
  wf u = true → compatible d u = true →
  leaf_at ks (deep_merge d u) =
    match leaf_at ks u with
    | Some v => Some v
    | None => if shadowed ks u then None else leaf_at ks d
    end.
Proof.
  revert d ks. induction u as [x|uitems IH] using tree_ind'; intros d ks Hwf Hc.
  { by destruct d. }
  destruct d as [x|ditems]; [done|].
  apply wf_Dict_iff in Hwf as Hwf'. destruct Hwf' as [Hn Hall].
  destruct (deep_merge_lookup ditems uitems Hn) as (r & -> & Hr).
  destruct ks as [|k ks]; [done|]. simpl. rewrite Hr.
  destruct (dict_get k uitems) as [[x|vitems]|] eqn:Hu.
  - destruct (dict_get k ditems) as [[?|?]|]; by destruct ks.
  - pose proof (compatible_lookup _ _ _ _ Hc Hu) as Hcv.
    apply dict_get_Some_elem in Hu as Hin.
    destruct (dict_get k ditems) as [[x|e]|] eqn:Hd.
    + done.
    + apply (proj1 (Forall_forall _ _) IH (k, Dict vitems) Hin); [|done].
      by apply (Hall k).
    + by destruct (leaf_at ks (Dict vitems)), (shadowed ks (Dict vitems)).
  - done.
Qed.

(** On a dict, [flatten] looks a sequence of slash-free keys up. *)
Lemma dict_get_flatten_join items ks :
  wf (Dict items) = true → slash_free_keys (Dict items) = true →
  ks ≠ [] → Forall (λ k, slash_free k = true) ks →
  dict_get (join_slash ks) (flatten (mkConfigurationBlock (Dict items)))
  = leaf_at ks (Dict items).
Proof.
  intros Hwf Hsf Hne Hfree.
  destruct (leaf_at ks (Dict items)) as [v|] eqn:Hl.
  { by apply dict_get_flatten_leaf. }
  destruct (dict_get _ _) as [o|] eqn:Hg; [|done].
  apply dict_get_flatten in Hg as (ks' & Heq & Hl'); [|done..].
  apply join_slash_inj in Heq; [congruence|done| |done|].
  - exact (leaf_at_Dict_nonempty _ _ _ Hl').
  - exact (leaf_at_slash_free _ _ _ Hsf Hl').
Qed.

(** X20.  Round trip on a root preset.  Let [B] be a root whose config [b] and
    a delta [D] be dicts with distinct, slash-free keys, [D] holding no
    mapping where [b] holds a leaf and no leaf equal to the leaf of [b]
    at the same path, and let [==] be reflexive on the leaves of [b].
    Then composing [B], merging [D] on top and diffing against [B]
    returns a config with exactly the leaves of [D], at their paths. *)
Theorem round_trip_on_root (B : Preset V) bitems Ditems :
  let b := Dict bitems in
  let D := Dict Ditems in
  base_preset B = None → d_config (data B) = Some b →
  config B = Some (mkConfigurationBlock b) →
  wf b = true → slash_free_keys b = true →
  wf D = true → slash_free_keys D = true →
  compatible b D = true →
  (∀ ks o, leaf_at ks b = Some o → py_eq o o = true) →
  (∀ ks v o, leaf_at ks D = Some v → leaf_at ks b = Some o → py_eq o v = false) →
  ∃ merged c',
    compose_config B = Return b
    ∧ _deep_update b D = Return merged
    ∧ diff_config B merged = Return c'
    ∧ ∀ ks, leaf_at ks c' = leaf_at ks D.
Proof.
  intros b D. subst b D.
  intros Hroot Hdata Hcfg Hwfb Hsfb HwfD HsfD Hcompat Hrefl Hgen.
  destruct (deep_merge_lookup bitems Ditems) as (mitems & Hm & _).
  { apply wf_Dict_iff in HwfD. tauto. }
  pose proof (wf_deep_merge _ _ Hwfb HwfD) as Hwfm.
  pose proof (slash_free_keys_deep_merge _ _ Hsfb HsfD) as Hsfm.
  rewrite Hm in Hwfm, Hsfm.
  destruct (diff_config_spec B _ mitems Hcfg Hwfm Hsfm)
    as (c' & Hdiff & _ & _ & Hl).
  exists (Dict mitems), c'. split_and!.
  - rewrite compose_config_unfold. unfold data_config. by rewrite Hdata, Hroot.
  - by rewrite _deep_update_deep_merge, Hm.
  - done.
  - intros ks. rewrite Hl. clear Hl.
    destruct (leaf_at ks (Dict mitems)) as [v|] eqn:Hlm.
    + rewrite dict_get_flatten_join; [|done..| |].
      2:{ exact (leaf_at_Dict_nonempty _ _ _ Hlm). }
      2:{ exact (leaf_at_slash_free _ _ _ Hsfm Hlm). }
      rewrite <-Hm, leaf_at_deep_merge in Hlm by done.
      destruct (leaf_at ks (Dict Ditems)) as [v'|] eqn:HlD.
      * injection Hlm as ->.
        destruct (leaf_at ks (Dict bitems)) as [o|] eqn:Hlb; [|done].
        by rewrite (Hgen ks v o).
      * destruct (shadowed ks (Dict Ditems)); [done|]. rewrite Hlm.
        by rewrite (Hrefl ks v).
    + rewrite <-Hm, leaf_at_deep_merge in Hlm by done.
      by destruct (leaf_at ks (Dict Ditems)).
Qed.
End RoundTripFacts.

(** ** Construction against a base *)

Section ConstructionFacts.
Context {V : Type} `{!PyValue V}.

End ConstructionFacts.

(** ** The properties on concrete presets *)

Module Examples.
Import Example.

(** [app_leaf.get_int("db/port")]: the leaf does not hold the key, the
    middle preset does, and its value hides the root's. *)
Lemma getter_returns_nearest_witness :
  nearest app_leaf "db/port" TInt = Some app_mid
  ∧ config_get app_mid "db/port" TInt = Return (PInt 6000)
  ∧ (get_int app_leaf "db/port" None []).1.1 = Return (PInt 6000).
Proof.
  split_and!; [reflexivity..|].
  apply (getter_returns_nearest TInt app_leaf "db/port" None [] app_mid (PInt 6000));
    reflexivity.
Defined.

(** The primary [retries] is [0], falsy and present: it wins over the
    fallback [db/port].  With a primary that is nowhere the fallback is
    used, and with neither anywhere the call raises. *)
Lemma fallback_after_primary_witness :
  (get_int app_leaf "retries" (Some "db/port") []).1.1 = Return (PInt 0)
  ∧ (get_int app_leaf "timeout" (Some "db/port") []).1.1 = Return (PInt 6000)
  ∧ ∃ msg, get_int app_leaf "timeout" (Some "limit") []
           = (Raise (NotFoundError msg), app_leaf, []).
Proof.
  split_and!.
  - apply (proj1 (fallback_after_primary TInt app_leaf "retries" "db/port" [])
             app_root (PInt 0)); reflexivity.
  - exact (eq_trans
      (proj1 (proj2 (fallback_after_primary TInt app_leaf "timeout" "db/port" []))
         eq_refl)
      eq_refl).
  - apply (proj2 (proj2
      (fallback_after_primary TInt app_leaf "timeout" "limit" [])));
      reflexivity.
Defined.

(** [get_with_prefix("db").get_int("port")] and [get_int("db/port")];
    and the view of the preset object at 1 holds the store 2 and the
    record 4 of the original. *)
Lemma get_with_prefix_scoping_witness :
  (get_int (get_with_prefix app_leaf "db") "port" None []).1.1
  = (get_int app_leaf "db/port" None []).1.1
  ∧ one_preset_heap !! 1%positive = Some (ObjectStore.PresetO one_preset)
  ∧ ∃ r' h' n,
      ObjectStore.get_with_prefix 1%positive "db" one_preset_heap = Some (r', h')
      ∧ h' !! r' = Some (ObjectStore.PresetO n)
      ∧ ObjectStore.o_config n = Some 2%positive
      ∧ ObjectStore.o_data n = 4%positive
      ∧ ObjectStore.o_prefix n = "db/".
Proof.
  destruct (get_with_prefix_scoping TInt app_leaf "db" "port" None [] [])
    as (Hout & _ & _ & _ & _ & Hheap).
  split_and!; [exact Hout|reflexivity|].
  destruct (Hheap one_preset_heap 1%positive one_preset eq_refl)
    as (r' & h' & n & Hg & _ & Hn & Hc & Hd & _ & Hp & _).
  exists r', h', n. split_and!; [done..| | |]; by rewrite ?Hc, ?Hd, ?Hp.
Defined.

(** [db/host] holds a string: [get_int] raises the store's error, with
    and without a detour through the fallback. *)
Lemma store_error_propagates_witness :
  get_int app_leaf "db/host" None []
  = (Raise (StoreError "cannot convert db/host"), app_leaf, [])
  ∧ get_int app_leaf "timeout" (Some "db/host") []
    = (Raise (StoreError "cannot convert db/host"), app_leaf, []).
Proof.
  split.
  - apply (proj1 (store_error_propagates TInt app_leaf "db/host" None []
                    (StoreError "cannot convert db/host")) app_root);
      reflexivity.
  - apply (proj2 (store_error_propagates TInt app_leaf "timeout"
                    (Some "db/host") [] (StoreError "cannot convert db/host"))
             "db/host" app_root); reflexivity.
Defined.

(** Under logger 3, [get_string("db/port")] fails (the port is a
    number) and [get_int("timeout", "db/port")] resolves [timeout]
    through its fallback; the first successful resolution of [db/port]
    then sends its one line. *)
Lemma logging_deduplicated_witness :
  let pre := [(TString, "db/port", None); (TInt, "timeout", Some "db/port")] in
  let s0 := (run_calls pre (set_logger app_leaf (Some 3)) []).1 in
  let out0 := (run_calls pre (set_logger app_leaf (Some 3)) []).2 in
  out0 = [(3, "Using timeout = 6000")]
  ∧ (get_int s0 "db/port" None out0).1.1 = Return (PInt 6000)
  ∧ (get_int s0 "db/port" None out0).2
    = [(3, "Using timeout = 6000"); (3, "Using db/port = 6000")].
Proof.
  intros pre s0 out0.
  assert ((getter TInt s0 "db/port" None out0).1.1 = Return (PInt 6000))
    as Hv by (vm_compute; reflexivity).
  split_and!; [vm_compute; reflexivity|exact Hv|].
  refine (proj1 (logging_deduplicated TInt app_leaf 3 "db/port" None [] pre
                   (PInt 6000) _ Hv)).
  intros t' fallback' v' Hin.
  apply elem_of_cons in Hin as [[= -> ->]|Hin]; [discriminate|].
  apply elem_of_cons in Hin as [[=]|Hin]. by apply elem_of_nil in Hin.
Defined.

(** A preset built from [{config: {a: 1}}] against the root [{a: 1}]:
    its delta is empty. *)
Lemma generated_name_of_empty_delta_witness :
  name same_as_root = "empty" ∧ d_name (data same_as_root) = Some "empty".
Proof.
  apply (generated_name_of_empty_delta (raw (Dict [("a", i 1)]))
           (Some (root (Dict [("a", i 1)]))) None "uuid" 0 same_as_root).
  - reflexivity.
  - intros b [= <-]. reflexivity.
  - reflexivity.
  - reflexivity.
Defined.

(** C6 as stated fails: a preset without a name and with the empty
    delta [{}], built against a base that is itself derived, is named
    after its base, ["empty: "] here, not ["empty"]. *)
Lemma generated_name_of_empty_delta_counterexample :
  (m ← middle; p ← construct (raw (Dict [])) (Some m);
   Return (d_config (data p), name p, d_name (data p)))
  = Return (Some (Dict []), "empty: ", Some "empty: ")
  ∧ "empty: " ≠ "empty".
Proof. split; [reflexivity|discriminate]. Qed.

(** C2 on a chain of depth two.  The root holds [{a: 1}], the middle
    preset stores nothing of its own, and the last preset is built
    from [{a: 1}]: [diff_config] compares with the middle preset's own
    (empty) delta only, so the last preset stores [a = 1], the value
    its base chain already resolves [a] to. *)
Lemma stored_delta_repeats_ancestor_value :
  (b ← bottom;
   own ← config_flatten b;
   inherited ← match base_preset b with
               | Some m => _get_value m "a" TInt
               | None => Raise (NotFoundError "a")
               end;
   Return (d_config (data b), own, inherited))
  = Return (Some (Dict [("a", i 1)]), [("a", PInt 1)], PInt 1).
Proof. reflexivity. Qed.

(** C3 on a base that is itself derived.  The base [middle] composes
    to [{a: 1}] (all of it inherited); merging the delta [{b: 2}] and
    diffing against [middle] gives back [{a: 1, b: 2}], not
    [{b: 2}]. *)
Lemma round_trip_keeps_inherited_entries :
  (m ← middle;
   composed ← compose_config m;
   merged ← _deep_update composed (Dict [("b", i 2)]);
   d ← diff_config m merged;
   Return (composed, d))
  = Return (Dict [("a", i 1)], Dict [("a", i 1); ("b", i 2)])
  ∧ flatten (mkConfigurationBlock (Dict [("a", i 1); ("b", i 2)]))
    ≠ flatten (mkConfigurationBlock (Dict [("b", i 2)])).
Proof. split; [reflexivity|discriminate]. Qed.

(** C5 where the delta holds a mapping at a key at which the base
    holds a number.  The presets [Preset({config: {a: {b: 2}}}, root)]
    and [Preset({config: {a: {}}}, root)] over the root [{a: 1}] store
    their config as given; composing the first raises a [TypeError],
    composing the second yields [{a: 1}]: in neither case does the
    overlay value replace the number. *)
Lemma compose_mapping_over_scalar :
  (p ← nested_over_scalar; Return (d_config (data p)))
  = Return (Some (Dict [("a", Dict [("b", i 2)])]))
  ∧ (p ← nested_over_scalar; compose_config p) = Raise TypeError
  ∧ (p ← empty_over_scalar; Return (d_config (data p)))
    = Return (Some (Dict [("a", Dict [])]))
  ∧ (p ← empty_over_scalar; compose_config p) = Return (Dict [("a", i 1)]).
Proof. by split_and!. Qed.

(** *** The engines where they do what the specification says *)

Lemma pyval_eq_refl (x : pyval) : py_eq x x = true.
Proof. destruct x; simpl; by rewrite ?bool_decide_eq_true. Qed.

(** Case analysis on the paths that lead to a leaf of a concrete tree. *)
Ltac leaf_cases :=
  repeat match goal with
    | H : leaf_at ?ks _ = Some _ |- _ =>
        is_var ks; destruct ks; simpl in H; try discriminate H
    | H : context [decide (?k = ?s)] |- _ =>
        is_var k; destruct (decide (k = s)); [subst k|]; simpl in H;
        try discriminate H
    | H : Some _ = Some _ |- _ => injection H as ?; subst
    | H : leaf_at _ _ = Some _ |- _ =>
        progress (vm_compute in H); try discriminate H
    end.

(** [{a: {b: 1, c: 2}, l: [1, 2]}] under the overlay
    [{a: {c: 3}, l: [5], n: {x: 1}}]: the nested mapping is merged, the
    list is replaced, the new key is added. *)
Lemma _deep_update_deep_merge_example :
  _deep_update
    (Dict [("a", Dict [("b", i 1); ("c", i 2)]); ("l", Leaf (PList [1; 2]%Z))])
    (Dict [("a", Dict [("c", i 3)]); ("l", Leaf (PList [5]%Z));
           ("n", Dict [("x", i 1)])])
  = Return
      (Dict [("a", Dict [("b", i 1); ("c", i 3)]); ("l", Leaf (PList [5]%Z));
             ("n", Dict [("x", i 1)])]).
Proof. by rewrite _deep_update_deep_merge. Defined.

(** The chain [app_leaf] over [app_mid] over [app_root] composes to the
    root's config with the two overrides. *)
Lemma compose_config_composed_example :
  compose_config app_leaf
  = Return
      (Dict [("db", Dict [("port", i 6000); ("host", Leaf (PStr "localhost"))]);
             ("debug", Leaf (PBool true)); ("retries", i 0)]).
Proof.
  destruct (compose_config_composed app_leaf eq_refl) as (t & Ht & ->).
  by injection Ht as <-.
Defined.


(** Round trip on the root [{a: {b: 1, c: 2}}] with the delta
    [{a: {c: 3}, d: 4}]. *)
Lemma round_trip_on_root_example :
  let b := Dict [("a", Dict [("b", i 1); ("c", i 2)])] in
  let D := Dict [("a", Dict [("c", i 3)]); ("d", i 4)] in
  ∃ merged c',
    compose_config (root b) = Return b
    ∧ _deep_update b D = Return merged
    ∧ diff_config (root b) merged = Return c'
    ∧ ∀ ks, leaf_at ks c' = leaf_at ks D.
Proof.
  apply (round_trip_on_root (root (Dict [("a", Dict [("b", i 1); ("c", i 2)])])));
    try reflexivity.
  - intros ks o _. apply pyval_eq_refl.
  - intros ks v o HD Hb. leaf_cases; reflexivity.
Defined.
End Examples.

(** * Further properties of the code *)

(** ** Getter calls and the preset *)

Section GetterFacts.
Context {V : Type} `{!PyValue V, !TypedStore V}.
Implicit Types (self p q : Preset V) (t : value_type) (out : Sink).

(** X1.  A getter call leaves every field of the preset but the dedup set as
    it was; a call that raises, a call on a preset without logger and a
    call for a name already in the dedup set change nothing at all, the
    log included. *)
Theorem getter_touches_dedup_set_only t self name fallback out :
  let self' := (getter t self name fallback out).1.2 in
  let out' := (getter t self name fallback out).2 in
  self' = set_printed_settings (_printed_settings self') self
  ∧ ((∃ e, (getter t self name fallback out).1.1 = Raise e)
     ∨ logger self = None
     ∨ prefix self +:+ name ∈ _printed_settings self →
     self' = self ∧ out' = out).
Proof.
  rewrite getter_unfold, _get_value_with_fallback_spec.
  destruct (resolve self name fallback t) as [v|e]; simpl.
  - destruct (logger self) as [lg|] eqn:Hl; [case_decide as Hin|]; simpl.
    + split; [by destruct self|done].
    + split; [by destruct self|].
      intros [[e [=]]|[[=]|?]]. done.
    + split; [by destruct self|done].
  - split; [by destruct self|done].
Qed.

(** X2.  A preset made without data has no store: every getter raises
    [AttributeError] on it, whatever its base chain holds, and nothing is
    logged. *)
Theorem getter_without_data t self name fallback out :
  config self = None →
  getter t self name fallback out = (Raise AttributeError, self, out).
Proof.
  intros Hc. rewrite getter_unfold. apply _get_value_with_fallback_raise.
  unfold resolve. rewrite _get_value_unfold. unfold config_get. by rewrite Hc.
Qed.


(** X4.  A clone and a prefixed view have no logger: getter calls on them log
    nothing and leave them as they are, whatever logger the original
    has. *)
Theorem views_do_not_log t self s name fallback out calls :
  (getter t (clone self) name fallback out).2 = out
  ∧ (getter t (get_with_prefix self s) name fallback out).2 = out
  ∧ run_calls calls (get_with_prefix self s) out = (get_with_prefix self s, out)
  ∧ run_calls calls (clone self) out = (clone self, out).
Proof.
  assert (∀ p, logger p = None → ∀ t name fallback,
            getter t p name fallback out = ((getter t p name fallback out).1.1, p, out))
    as Hquiet.
  { intros p Hp t' name' fallback'.
    rewrite getter_unfold, _get_value_with_fallback_spec.
    destruct (resolve p name' fallback' t'); [by rewrite Hp|done]. }
  assert (∀ p, logger p = None → run_calls calls p out = (p, out)) as Hrun.
  { intros p Hp. induction calls as [|[[t' name'] fallback'] calls IH]; [done|].
    simpl. by rewrite (Hquiet p Hp). }
  split_and!; [by rewrite Hquiet..|by apply Hrun|by apply Hrun].
Qed.

(** X5.  Scoping twice is scoping once by the joined segment, and cloning a
    clone gives the clone. *)
Theorem get_with_prefix_composes self a b :
  get_with_prefix (get_with_prefix self a) b
  = get_with_prefix self (a +:+ "/" +:+ b)
  ∧ clone (clone self) = clone self
  ∧ get_with_prefix (clone self) a = get_with_prefix self a.
Proof.
  split_and!; [|done..].
  unfold get_with_prefix, set_prefix, clone. simpl. f_equal.
  by rewrite !append_assoc.
Qed.

Lemma chain_unfold self :
  chain self = self :: match base_preset self with
                       | Some base => chain base
                       | None => []
                       end.
Proof. by destruct self. Qed.

Lemma root_of_unfold self :
  root_of self = match base_preset self with
                 | Some base => root_of base
                 | None => self
                 end.
Proof. by destruct self. Qed.

(** X6.  When no preset of the chain answers, the [NotFoundError] that reaches
    the caller is the one the root's store raised: for the primary name
    when there is no fallback, for the fallback name when there is
    one. *)
Theorem not_found_error_is_the_roots t self name fallback out :
  nearest self (prefix self +:+ name) t = None →
  match fallback with
  | Some fb => nearest self (prefix self +:+ fb) t = None
  | None => True
  end →
  let key := prefix self +:+ default name fallback in
  getter t self name fallback out = (config_get (root_of self) key t, self, out)
  ∧ is_not_found (config_get (root_of self) key t) = true.
Proof.
  assert (∀ key, nearest self key t = None →
            _get_value self key t = config_get (root_of self) key t
            ∧ is_not_found (config_get (root_of self) key t) = true) as Hroot.
  { intros key. unfold nearest.
    induction self as [p Hb|p base Hb IH] using chain_ind;
      rewrite _get_value_unfold, root_of_unfold, chain_unfold, Hb;
      simpl find; unfold answers at 1;
      by destruct (config_get p key t) as [v|[]] eqn:Hc. }
  intros Hn Hf key. subst key.
  destruct (Hroot _ Hn) as [Hp Hpn].
  destruct (config_get (root_of self) (prefix self +:+ name) t) as [|[]] eqn:Hc;
    try done.
  destruct fallback as [fb|]; simpl.
  - destruct (Hroot _ Hf) as [Hq Hqn]. split; [|done].
    destruct (config_get (root_of self) (prefix self +:+ fb) t) as [|e] eqn:Hc';
      [done|].
    rewrite getter_unfold. apply _get_value_with_fallback_raise.
    unfold resolve. by rewrite Hp, Hq.
  - rewrite Hc. split; [|done].
    rewrite getter_unfold. apply _get_value_with_fallback_raise.
    unfold resolve. by rewrite Hp.
Qed.

(** X7.  Two presets of the same name have the same experiment name only if
    their try numbers are the same; a prefixed view has the experiment
    name of the original. *)
Theorem experiment_name_tells_tries_apart self p s :
  (name self = name p → get_experiment_name self = get_experiment_name p →
   try_number self = try_number p)
  ∧ get_experiment_name (get_with_prefix self s) = get_experiment_name self.
Proof.
  split; [|done]. unfold get_experiment_name. intros -> Heq.
  rewrite !append_assoc in Heq. apply (inj _) in Heq. apply (inj _) in Heq.
  assert (∀ a b : string, a +:+ ")" = b +:+ ")" → a = b) as Hcancel.
  { induction a as [|x a IH]; intros [|y b]; try done.
    - rewrite append_cons. intros [= <- Hb]. by destruct b.
    - rewrite append_cons. intros [= <- Ha]. by destruct a.
    - rewrite !append_cons. intros [= <- Hab]. f_equal. auto. }
  apply Hcancel in Heq. by apply (inj _) in Heq.
Qed.
End GetterFacts.

(** ** Suffixes *)

Lemma length_append (a b : string) :
  String.length (a +:+ b) = (String.length a + String.length b)%nat.
Proof.
  induction a as [|x a IH]; [done|]. rewrite append_cons. simpl. by rewrite IH.
Qed.

Lemma substring_all (b : string) : String.substring 0 (String.length b) b = b.
Proof. induction b as [|x b IH]; [done|]. simpl. by rewrite IH. Qed.

Lemma substring_append_r (a b : string) :
  String.substring (String.length a) (String.length b) (a +:+ b) = b.
Proof.
  induction a as [|x a IH]; [apply substring_all|]. by rewrite append_cons.
Qed.

Lemma substring_append_l (a b : string) :
  String.substring 0 (String.length a) (a +:+ b) = a.
Proof.
  induction a as [|x a IH]; [by destruct b|]. rewrite append_cons. simpl.
  by rewrite IH.
Qed.

Lemma endswith_append (a b : string) : endswith (a +:+ b) b = true.
Proof.
  unfold endswith. rewrite length_append. apply andb_true_iff. split.
  - apply Nat.leb_le. lia.
  - replace (String.length a + String.length b - String.length b)%nat
      with (String.length a) by lia.
    rewrite substring_append_r. apply String.eqb_refl.
Qed.

Lemma drop_last_append (a b : string) : drop_last (String.length b) (a +:+ b) = a.
Proof.
  unfold drop_last. rewrite length_append.
  replace (String.length a + String.length b - String.length b)%nat
    with (String.length a) by lia.
  apply substring_append_l.
Qed.

Lemma substring_split (x : string) (m : nat) :
  (m ≤ String.length x)%nat →
  x = String.substring 0 m x +:+ String.substring m (String.length x - m) x.
Proof.
  revert m. induction x as [|c x IH]; intros [|m] Hm; simpl in *; try done.
  - by rewrite substring_all.
  - rewrite append_cons. f_equal. apply IH. lia.
Qed.

Lemma append_inj_r (a b c d : string) :
  a +:+ b = c +:+ d → String.length b = String.length d → b = d.
Proof.
  revert c. induction a as [|x a IH]; intros [|y c] Heq Hlen.
  - done.
  - exfalso. change ("" +:+ b) with b in Heq. subst b.
    rewrite length_append in Hlen. simpl in Hlen. lia.
  - exfalso. change ("" +:+ d) with d in Heq. subst d.
    rewrite length_append in Hlen. simpl in Hlen. lia.
  - rewrite !append_cons in Heq. injection Heq as _ Heq. eauto.
Qed.

(** A string that ends in a colon and a blank does not end in [" - "]. *)
Lemma endswith_colon (a : string) : endswith (a +:+ ": ") " - " = false.
Proof.
  destruct (endswith (a +:+ ": ") " - ") eqn:He; [exfalso|done].
  unfold endswith in He. apply andb_true_iff in He as [Hl He].
  apply Nat.leb_le in Hl. apply String.eqb_eq in He.
  pose proof (substring_split (a +:+ ": ") (String.length (a +:+ ": ") - 3)) as Hs.
  replace (String.length (a +:+ ": ") - (String.length (a +:+ ": ") - 3))%nat
    with 3%nat in Hs by (simpl in Hl; lia).
  simpl String.length in He at 2 3. rewrite He in Hs.
  specialize (Hs ltac:(lia)).
  set (pre := String.substring 0 _ _) in Hs.
  change (pre +:+ " - ") with (pre +:+ (" " +:+ "- ")) in Hs.
  rewrite <-append_assoc in Hs.
  by apply append_inj_r in Hs.
Qed.

(** ** The generated name and the constructor *)

Section ConstructorFacts.
Context {V : Type} `{!PyValue V}.
Implicit Types (self p : Preset V) (raw : RawData V).

Lemma name_parts_join (flat : list (string * V)) (n : string) :
  flat ≠ [] →
  name_parts flat n = (n +:+ join_with " - " (entry_text <$> flat)) +:+ " - ".
Proof.
  revert n. induction flat as [|kv [|kv' flat] IH]; intros n Hne; [done| |].
  - unfold name_parts, entry_text. simpl. by rewrite !append_assoc.
  - change (name_parts (kv :: kv' :: flat) n)
      with (name_parts (kv' :: flat) (n +:+ kv.1 +:+ ": " +:+ py_str kv.2 +:+ " - ")).
    rewrite IH by done.
    change (join_with " - " (entry_text <$> kv :: kv' :: flat))
      with (entry_text kv +:+ " - " +:+ join_with " - " (entry_text <$> kv' :: flat)).
    unfold entry_text at 2. by rewrite !append_assoc.
Qed.

(** X8.  The name [_generate_name] makes: the flattened entries of the own
    delta, each as ["key: value"], joined by [" - "] with no separator
    left at the end, after ["<base.name>: "] when the base is itself
    derived; for an empty delta the name is that prefix alone, and
    ["empty"] when there is no prefix.  The name is written into
    [data['name']], and nothing else changes. *)
Theorem generated_name_format self cb :
  config self = Some cb →
  let n :=
    match flatten cb with
    | [] => if decide (name_prefix self = "") then "empty" else name_prefix self
    | _ :: _ => name_prefix self +:+ join_with " - " (entry_text <$> flatten cb)
    end in
  _generate_name self
  = Return (n, set_data_field (set_data_name n (data self)) self).
Proof.
  intros Hc. unfold _generate_name, config_flatten. rewrite Hc.
  change (Return (flatten cb) ≫= ?k) with (k (flatten cb)). cbv beta.
  change (match base_preset self with
          | Some base => match base_preset base with
                         | Some _ => "" +:+ name base +:+ ": "
                         | None => ""
                         end
          | None => ""
          end) with (name_prefix self).
  destruct (flatten cb) as [|kv flat] eqn:Hf.
  - change (name_parts [] (name_prefix self)) with (name_prefix self).
    assert (endswith (name_prefix self) " - " = false) as ->; [|done].
    unfold name_prefix. destruct (base_preset self) as [b|]; [|done].
    destruct (base_preset b); [apply endswith_colon|done].
  - rewrite name_parts_join by done.
    rewrite endswith_append.
    by rewrite (drop_last_append _ " - ").
Qed.


(** X10.  How the constructor fails: a raw record without [config] is a
    [KeyError] whatever the base, and a base made without data (it has
    no store to flatten) is an [AttributeError]. *)
Theorem constructor_failures raw base file fresh_uuid now :
  (d_config raw = None →
   __init__ (Some raw) base file fresh_uuid now = Raise (KeyError "config"))
  ∧ (∀ b c, base = Some b → config b = None → d_config raw = Some c →
            __init__ (Some raw) base file fresh_uuid now = Raise AttributeError).
Proof.
  split.
  - intros Hc. unfold __init__, set_data. simpl. rewrite Hc.
    by destruct base.
  - intros b c -> Hb Hc. unfold __init__, set_data. simpl. rewrite Hc.
    unfold diff_config, config_flatten. by rewrite Hb.
Qed.
End ConstructorFacts.

(** ** Merging and composing *)

Section MergeFacts.
Context {V : Type} `{!PyValue V}.
Implicit Types (d u t c : tree V) (items ditems uitems : dict V) (k : string)
  (ks : list string).

(** X11.  On a well-formed overlay that holds no mapping over an existing
    leaf, [_deep_update] returns, and the overlay wins leaf by leaf: a
    leaf of the overlay is a leaf of the result, a leaf of the existing
    tree stays unless the overlay redefines its path or holds a leaf
    above it. *)
Theorem deep_update_overlay_wins d u :
  wf u = true → compatible d u = true →
  ∃ r, _deep_update d u = Return r
       ∧ ∀ ks, leaf_at ks r =
                 match leaf_at ks u with
                 | Some v => Some v
                 | None => if shadowed ks u then None else leaf_at ks d
                 end.
Proof.
  intros Hwf Hc. exists (deep_merge d u).
  split; [by apply _deep_update_deep_merge|].
  intros ks. by apply leaf_at_deep_merge.
Qed.

(** X12.  A derived preset composes to its base's composition with its own
    delta on top: own leaves win, inherited leaves stay where the own
    delta neither redefines nor shadows them. *)
Theorem compose_config_own_delta_wins (self base : Preset V) b c :
  base_preset self = Some base → d_config (data self) = Some c →
  compose_config base = Return b →
  wf c = true → compatible b c = true →
  ∃ t, compose_config self = Return t
       ∧ ∀ ks, leaf_at ks t =
                 match leaf_at ks c with
                 | Some v => Some v
                 | None => if shadowed ks c then None else leaf_at ks b
                 end.
Proof.
  intros Hbase Hc Hb Hwf Hcompat.
  rewrite compose_config_unfold. unfold data_config.
  rewrite Hc, Hbase, bind_Return_l, Hb, bind_Return_l.
  exists (deep_merge b c). split; [by apply _deep_update_deep_merge|].
  intros ks. by apply leaf_at_deep_merge.
Qed.

(** X13.  A preset without [data['config']] anywhere in the chain makes
    [compose_config] raise [KeyError('config')]: the records are read
    all the way down before anything is merged. *)
Theorem compose_config_missing_config (self q : Preset V) :
  q ∈ chain self → d_config (data q) = None →
  compose_config self = Raise (KeyError "config").
Proof.
  induction self as [p Hb|p base Hb IH] using chain_ind;
    rewrite chain_unfold, Hb, compose_config_unfold; unfold data_config.
  - intros ->%list_elem_of_singleton ->. done.
  - intros [->|Hin]%elem_of_cons Hq; [by rewrite Hq|].
    destruct (d_config (data p)); [|done].
    by rewrite bind_Return_l, Hb, (IH Hin Hq).
Qed.

Lemma dict_set_same {A} k (a : A) (l : list (string * A)) :
  dict_get k l = Some a → dict_set k a l = l.
Proof.
  induction l as [|[k0 a0] l IH]; simpl; [done|].
  case_decide; [by intros [= ->]; subst|]. intros ?. by rewrite IH.
Qed.

Lemma deep_merge_fixed (r rest : dict V) :
  (∀ k v, (k, v) ∈ rest →
          dict_get k r = Some match dict_get k r, v with
                              | Some (Dict e), Dict _ => deep_merge (Dict e) v
                              | _, _ => v
                              end) →
  deep_merge (Dict r) (Dict rest) = Dict r.
Proof.
  induction rest as [|[k v] rest IH]; intros Hfix; [done|].
  rewrite deep_merge_cons, dict_set_same.
  - apply IH. intros k' v' Hin. apply Hfix. by right.
  - apply Hfix. by left.
Qed.

Lemma compatible_intro (r uitems : dict V) :
  (∀ k vitems, (k, Dict vitems) ∈ uitems →
               match dict_get k r with
               | Some e => compatible e (Dict vitems) = true
               | None => True
               end) →
  compatible (Dict r) (Dict uitems) = true.
Proof.
  induction uitems as [|[k v] rest IH]; intros Hall; [done|].
  rewrite compatible_cons. apply andb_true_iff. split.
  - destruct v as [x|vitems]; [done|].
    specialize (Hall k vitems ltac:(by left)).
    by destruct (dict_get k r).
  - apply IH. intros k' vi Hin. apply Hall. by right.
Qed.

Lemma deep_merge_idempotent u d :
  wf u = true → compatible d u = true →
  deep_merge (deep_merge d u) u = deep_merge d u
  ∧ compatible (deep_merge d u) u = true.
Proof.
  revert d. induction u as [x|uitems IH] using tree_ind'; intros d Hwf Hc.
  { by destruct d. }
  destruct d as [x|ditems]; [done|].
  apply wf_Dict_iff in Hwf as Hwf'. destruct Hwf' as [Hn Hall].
  destruct (deep_merge_lookup ditems uitems Hn) as (r & -> & Hr).
  assert (∀ k v, (k, v) ∈ uitems →
            ∃ v', dict_get k r = Some v'
                  ∧ match v with
                    | Dict _ => deep_merge v' v = v' ∧ compatible v' v = true
                                ∧ ∃ e, v' = Dict e
                    | Leaf _ => v' = v
                    end) as Hentry.
  { intros k v Hin. rewrite Hr, (dict_get_elem k v uitems Hn Hin).
    eexists. split; [done|].
    pose proof (proj1 (Forall_forall _ _) IH (k, v) Hin) as IHv. simpl in IHv.
    specialize (Hall k v Hin).
    destruct v as [x|vitems]; [by destruct (dict_get k ditems) as [[]|]|].
    pose proof (compatible_lookup _ _ _ _ Hc
                  (dict_get_elem k _ uitems Hn Hin)) as Hcv.
    apply wf_Dict_iff in Hall as Hv'. destruct Hv' as [Hnv _].
    destruct (dict_get k ditems) as [[x|e]|].
    - done.
    - destruct (IHv (Dict e) Hall Hcv) as [? ?].
      destruct (deep_merge_lookup e vitems Hnv) as (r' & Hr' & _).
      split_and!; [done..|]. by exists r'.
    - destruct (IHv (Dict []) Hall (compatible_empty vitems)) as [Hi Hci].
      rewrite (deep_merge_empty vitems Hnv) in Hi, Hci.
      split_and!; [done..|]. by exists vitems. }
  split.
  - apply deep_merge_fixed. intros k v Hin.
    destruct (Hentry k v Hin) as (v' & -> & Hv). f_equal.
    destruct v as [x|vitems]; [by subst|].
    destruct Hv as (Hi & _ & e & ->). done.
  - apply compatible_intro. intros k vitems Hin.
    destruct (Hentry k _ Hin) as (v' & -> & _ & Hcv & _). done.
Qed.

(** X14.  Merging the same overlay a second time changes nothing. *)
Theorem deep_update_idempotent d u r :
  wf u = true → compatible d u = true →
  _deep_update d u = Return r → _deep_update r u = Return r.
Proof.
  intros Hwf Hc. rewrite _deep_update_deep_merge by done. intros [= <-].
  destruct (deep_merge_idempotent u d Hwf Hc) as [Hi Hci].
  by rewrite _deep_update_deep_merge, Hi.
Qed.
End MergeFacts.

(** ** Pruning *)

Section PruneFacts.
Context {V : Type} `{!PyValue V}.
Implicit Types (t c cur : tree V) (items : dict V) (k q : string)
  (ks p : list string) (old new : list (string * V)).

Lemma inhabited_Dict_elem items :
  inhabited (Dict items) = true
  ↔ items ≠ [] ∧ ∀ k c, (k, c) ∈ items → inhabited c = true.
Proof.
  simpl. rewrite andb_true_iff.
  assert (match items with [] => false | _ :: _ => true end = true ↔ items ≠ [])
    as -> by (by destruct items).
  apply and_iff_compat_l.
  induction items as [|[k0 t0] items IH].
  - split; [|done]. intros _ k c Hin. by apply elem_of_nil in Hin.
  - rewrite andb_true_iff, IH. split.
    + intros [H0 Hr] k c [[= -> ->]|Hin]%elem_of_cons; eauto.
    + intros H. split; [apply (H k0); by left|].
      intros k c Hin. apply (H k). by right.
Qed.

Lemma inhabited_Dict items :
  wf (Dict items) = true →
  inhabited (Dict items) = true
  ↔ items ≠ [] ∧ ∀ k c, dict_get k items = Some c → inhabited c = true.
Proof.
  intros [Hn _]%wf_Dict_iff. rewrite inhabited_Dict_elem.
  apply and_iff_compat_l. split.
  - intros H k c Hg%dict_get_Some_elem. eauto.
  - intros H k c Hin. apply (H k). by apply dict_get_elem.
Qed.

Lemma hollow_nil t : wf t = true → hollow [] t ↔ no_empty_mapping t = true.
Proof.
  destruct t as [x|items]; simpl hollow; unfold no_empty_mapping; [done|].
  intros [Hn _]%wf_Dict_iff. rewrite forallb_forall. split.
  - intros H [k c] Hin%list_elem_of_In. simpl. apply (H k).
    by apply dict_get_elem.
  - intros H k c Hg%dict_get_Some_elem%list_elem_of_In. exact (H _ Hg).
Qed.

Lemma inhabited_hollow ks t : wf t = true → inhabited t = true → hollow ks t.
Proof.
  revert t. induction ks as [|k0 ks IH]; intros [x|items] Hwf Hi; try done.
  - intros k c Hg. by apply (proj2 (proj1 (inhabited_Dict items Hwf) Hi) k).
  - intros k c Hg. pose proof (proj2 (proj1 (inhabited_Dict items Hwf) Hi) k c Hg).
    case_decide; [|done]. apply IH; [|done]. by eapply wf_dict_get.
Qed.

Lemma del_path_hollow p k t items t1 :
  wf t = true → hollow (p ++ [k]) t →
  descend p t = Return (Dict items) →
  del_path (p ++ [k]) t = Return t1 → hollow p t1.
Proof.
  revert t t1. induction p as [|k1 p IH]; intros t t1 Hwf Hh Hd.
  - injection Hd as ->. simpl app. rewrite del_path_last.
    destruct (dict_mem k items); [|done]. intros [= <-].
    apply wf_Dict_iff in Hwf as [Hn _].
    intros k' c. rewrite dict_get_del by done.
    case_decide as Hk; [done|]. intros Hg. specialize (Hh k' c Hg).
    simpl in Hh. by rewrite decide_False in Hh.
  - simpl in Hd. destruct (subscript t k1) as [sub|e] eqn:Hs; [|done].
    rewrite bind_Return_l in Hd.
    apply subscript_Return in Hs as (titems & -> & Hg).
    change ((k1 :: p) ++ [k]) with (k1 :: (p ++ [k])) in *.
    rewrite del_path_cons by (by destruct p). simpl subscript. rewrite Hg.
    rewrite bind_Return_l.
    destruct (del_path (p ++ [k]) sub) as [sub'|e] eqn:Hdel; [|done].
    rewrite bind_Return_l. intros [= <-].
    intros k' c. rewrite dict_get_set.
    case_decide as Hk; [subst k'|].
    + intros [= <-]. apply (IH sub); [by eapply wf_dict_get| |done..].
      specialize (Hh k1 sub Hg). simpl in Hh. by rewrite decide_True in Hh.
    + intros Hg'. specialize (Hh k' c Hg'). simpl in Hh.
      by rewrite decide_False in Hh.
Qed.

Lemma hollow_nonempty p t items :
  wf t = true → hollow p t →
  descend p t = Return (Dict items) → items ≠ [] → hollow [] t.
Proof.
  revert t. induction p as [|k1 p IH]; intros t Hwf Hh Hd Hne; [done|].
  simpl in Hd. destruct (subscript t k1) as [sub|e] eqn:Hs; [|done].
  rewrite bind_Return_l in Hd.
  apply subscript_Return in Hs as (titems & -> & Hg).
  intros k c Hgc. specialize (Hh k c Hgc). simpl in Hh.
  case_decide as Hk; [subst k|done].
  assert (c = sub) as -> by congruence.
  pose proof (wf_dict_get _ _ _ Hwf Hg) as Hwfs.
  specialize (IH sub Hwfs Hh Hd Hne).
  destruct p as [|k2 p].
  - injection Hd as ->. apply inhabited_Dict; [done|]. split; [done|].
    exact IH.
  - simpl in Hd. destruct (subscript sub k2) as [sub2|e] eqn:Hs2; [|done].
    apply subscript_Return in Hs2 as (sitems & -> & Hg2).
    apply inhabited_Dict; [done|]. split; [by destruct sitems|]. exact IH.
Qed.

Lemma del_path_Return ks t t1 :
  del_path ks t = Return t1 →
  ks ≠ []
  ∧ ∃ items, descend (removelast ks) t = Return (Dict items)
             ∧ dict_mem (List.last ks "") items = true.
Proof.
  revert t t1. induction ks as [|k ks IH]; intros t t1; [done|].
  destruct t as [x|titems]; [by destruct ks|].
  destruct (decide (ks = [])) as [->|Hne].
  - rewrite del_path_last. destruct (dict_mem k titems) eqn:Hm; [|done].
    intros _. split; [done|]. by exists titems.
  - rewrite del_path_cons by done.
    destruct (subscript (Dict titems) k) as [sub|e] eqn:Hs; [|done].
    rewrite bind_Return_l.
    destruct (del_path ks sub) as [sub'|e] eqn:Hdel; [|done].
    intros _. split; [done|].
    destruct (IH _ _ Hdel) as (_ & items & Hd & Hm).
    exists items. destruct ks as [|k2 ks]; [done|].
    change (removelast (k :: k2 :: ks)) with (k :: removelast (k2 :: ks)).
    change (List.last (k :: k2 :: ks) "") with (List.last (k2 :: ks) "").
    split; [|done]. cbn [descend]. by rewrite Hs, bind_Return_l.
Qed.

Lemma del_path_Dict ks items t1 :
  del_path ks (Dict items) = Return t1 → ∃ items', t1 = Dict items'.
Proof.
  destruct ks as [|k ks]; [done|]. destruct (decide (ks = [])) as [->|Hne].
  - rewrite del_path_last. destruct (dict_mem k items); [|done].
    intros [= <-]. eauto.
  - rewrite del_path_cons by done.
    destruct (subscript (Dict items) k) as [sub|e]; [|done].
    rewrite bind_Return_l.
    destruct (del_path ks sub) as [sub'|e]; [|done].
    intros [= <-]. eauto.
Qed.

(** The [while] loop that follows a deletion leaves no mapping empty
    that the deletion has emptied. *)
Lemma prune_hollow rkeys t items t' :
  wf t = true → hollow (rev rkeys) t →
  descend (rev rkeys) t = Return (Dict items) →
  prune rkeys t = Return t' →
  wf t' = true ∧ hollow [] t' ∧ ((∃ i, t = Dict i) → ∃ i', t' = Dict i').
Proof.
  revert t items. induction rkeys as [|last_key rinit IH]; intros t items Hwf Hh Hd.
  { by intros [= <-]. }
  simpl rev in Hd, Hh. pose proof Hd as Hd0. rewrite descend_app in Hd.
  destruct (descend (rev rinit) t) as [block|e] eqn:Hb; [|done].
  rewrite bind_Return_l in Hd. simpl in Hd.
  destruct (subscript block last_key) as [item|e] eqn:Hs; [|done].
  injection Hd as ->.
  apply subscript_Return in Hs as Hs'. destruct Hs' as (bitems & -> & Hg).
  rewrite prune_cons, Hb, bind_Return_l, Hs, bind_Return_l. simpl len.
  rewrite bind_Return_l.
  destruct items as [|kv items]; simpl Nat.eqb.
  - destruct (del_path_spec (rev rinit) last_key t bitems)
      as (t1 & Hdel & Hwf1 & _ & Hd1 & _); [done..| |].
    { unfold dict_mem. by rewrite Hg. }
    rewrite Hdel, bind_Return_l. intros Hpr.
    destruct (IH t1 _ Hwf1 (del_path_hollow _ _ _ _ _ Hwf Hh Hb Hdel) Hd1 Hpr)
      as (Hwf' & Hh' & Hdict).
    split_and!; [done..|]. intros [i ->]. apply Hdict.
    by eapply del_path_Dict.
  - intros [= <-]. split_and!; [done| |done].
    by apply (hollow_nonempty _ _ _ Hwf Hh Hd0).
Qed.

Lemma hollow_weaken ks t : wf t = true → hollow [] t → hollow ks t.
Proof.
  destruct t as [x|items]; [by destruct ks|]. intros Hwf Hh.
  destruct ks as [|k0 ks]; [done|]. intros k c Hg.
  specialize (Hh k c Hg). simpl in Hh. case_decide; [|done].
  apply inhabited_hollow; [|done]. by eapply wf_dict_get.
Qed.

Lemma diff_step_hollow old new cur q cur' :
  wf cur = true → hollow [] cur → (∃ i, cur = Dict i) →
  diff_step old new cur q = Return cur' →
  wf cur' = true ∧ hollow [] cur' ∧ ∃ i', cur' = Dict i'.
Proof.
  intros Hwf Hh Hdict. unfold diff_step.
  destruct (dict_get q old) as [o|]; [|by intros [= <-]].
  destruct (dict_get q new) as [n|]; [|done].
  destruct (py_eq o n); [|by intros [= <-]].
  destruct (del_path (split_slash q) cur) as [cur1|e] eqn:Hdel; [|done].
  rewrite bind_Return_l. intros Hpr.
  destruct (del_path_Return _ _ _ Hdel) as (Hne & bitems & Hd & Hm).
  rewrite (app_removelast_last "" Hne) in Hdel.
  destruct (del_path_spec _ _ cur bitems Hwf Hd Hm)
    as (t1 & Hdel' & Hwf1 & _ & Hd1 & _).
  rewrite Hdel in Hdel'. injection Hdel' as <-.
  pose proof (del_path_hollow _ _ _ _ _ Hwf (hollow_weaken _ _ Hwf Hh) Hd Hdel)
    as Hh1.
  rewrite <-(rev_involutive (removelast (split_slash q))) in Hh1, Hd1.
  destruct (prune_hollow _ _ _ _ Hwf1 Hh1 Hd1 Hpr) as (Hwf' & Hh' & Hdict').
  split_and!; [done..|]. apply Hdict'. destruct Hdict as [i ->].
  by eapply del_path_Dict.
Qed.

Lemma diff_loop_hollow old new todo cur c' :
  wf cur = true → hollow [] cur → (∃ i, cur = Dict i) →
  diff_loop old new todo cur = Return c' →
  wf c' = true ∧ hollow [] c' ∧ ∃ i', c' = Dict i'.
Proof.
  revert cur. induction todo as [|q todo IH]; intros cur Hwf Hh Hdict.
  { by intros [= <-]. }
  rewrite diff_loop_cons.
  destruct (diff_step old new cur q) as [cur1|e] eqn:Hs; [|done].
  rewrite bind_Return_l.
  destruct (diff_step_hollow _ _ _ _ _ Hwf Hh Hdict Hs) as (? & ? & ?).
  by apply IH.
Qed.

End PruneFacts.

(** ** What [diff_config] keeps *)

Section DeltaFacts.
Context {V : Type} `{!PyValue V}.
Implicit Types (self : Preset V) (t c cur : tree V) (items : dict V)
  (k q : string) (ks : list string) (old new : list (string * V)).



Lemma diff_config_hollow self cb items c' :
  config self = Some cb →
  wf (Dict items) = true → no_empty_mapping (Dict items) = true →
  diff_config self (Dict items) = Return c' →
  wf c' = true ∧ hollow [] c' ∧ ∃ items', c' = Dict items'.
Proof.
  intros Hcb Hwf Hne. unfold diff_config, config_flatten.
  rewrite Hcb, bind_Return_l. apply diff_loop_hollow; [done| |by eexists].
  by apply hollow_nil.
Qed.

(** X15.  In terms of the flattened mappings the code compares: the result of
    [diff_config] flattens to the entries of the flattened candidate for
    which the test of the loop fails, and to nothing else. *)
Theorem diff_config_keeps_what_differs self cb items :
  config self = Some cb →
  wf (Dict items) = true → slash_free_keys (Dict items) = true →
  ∃ c', diff_config self (Dict items) = Return c'
        ∧ ∀ q v,
            dict_get q (flatten (mkConfigurationBlock c')) = Some v
            ↔ dict_get q (flatten (mkConfigurationBlock (Dict items))) = Some v
              ∧ redundant (flatten cb)
                  (flatten (mkConfigurationBlock (Dict items))) q = false.
Proof.
  intros Hcb Hwf Hsf.
  destruct (diff_config_spec self cb items Hcb Hwf Hsf)
    as (c' & Hdiff & Hwf' & Hsf' & Hl).
  exists c'. split; [done|]. intros q v. unfold redundant.
  rewrite !dict_get_flatten by done. split.
  - intros (ks & -> & Hks). rewrite Hl in Hks.
    destruct (leaf_at ks (Dict items)) as [v'|] eqn:Hv'; [|done].
    rewrite (dict_get_flatten_leaf _ _ _ Hwf Hsf Hv').
    destruct (dict_get (join_slash ks) (flatten cb)) as [o|].
    + destruct (py_eq o v') eqn:Heq; [done|]. injection Hks as <-. eauto.
    + injection Hks as <-. eauto.
  - intros [(ks & -> & Hks) Hr]. exists ks. split; [done|].
    rewrite Hl, Hks. rewrite (dict_get_flatten_leaf _ _ _ Hwf Hsf Hks) in Hr.
    destruct (dict_get (join_slash ks) (flatten cb)) as [o|]; [|done].
    by rewrite Hr.
Qed.


(** X17.  Pruning: when the candidate holds no empty mapping below its top
    level, neither does the result of [diff_config]; a mapping whose
    entries have all been deleted is deleted, and so on upwards. *)
Theorem diff_config_leaves_no_empty_mapping self cb items :
  config self = Some cb →
  wf (Dict items) = true → slash_free_keys (Dict items) = true →
  no_empty_mapping (Dict items) = true →
  ∃ c', diff_config self (Dict items) = Return c'
        ∧ no_empty_mapping c' = true.
Proof.
  intros Hcb Hwf Hsf Hne.
  destruct (diff_config_spec self cb items Hcb Hwf Hsf) as (c' & Hdiff & _).
  exists c'. split; [done|].
  destruct (diff_config_hollow self cb items c' Hcb Hwf Hne Hdiff)
    as (Hwf' & Hh & _).
  by apply hollow_nil.
Qed.

End DeltaFacts.

(** ** The further properties on concrete presets *)

Module FurtherExamples.
Import Example.

(** [get_string("db/port")] on a preset with a logger raises (the port
    is a number): preset and log are as before. *)
Lemma getter_touches_dedup_set_only_witness :
  (getter TString (set_logger app_leaf (Some 3)) "db/port" None []).1.2
  = set_logger app_leaf (Some 3)
  ∧ (getter TString (set_logger app_leaf (Some 3)) "db/port" None []).2 = [].
Proof.
  apply (proj2 (getter_touches_dedup_set_only TString
                  (set_logger app_leaf (Some 3)) "db/port" None [])).
  left. eexists. reflexivity.
Defined.

(** [Preset(base_preset=app_root).get_int("db/port")] *)
Lemma getter_without_data_witness :
  getter TInt (blank (Some app_root)) "db/port" None []
  = (Raise AttributeError, blank (Some app_root), []).
Proof. apply getter_without_data. reflexivity. Defined.


(** Neither [timeout] nor [limit] is anywhere in the chain of
    [app_leaf]: the error names [limit], as the root's store does. *)
Lemma not_found_error_is_the_roots_witness :
  getter TInt app_leaf "timeout" (Some "limit") []
  = (Raise (NotFoundError "limit"), app_leaf, []).
Proof.
  exact (proj1 (not_found_error_is_the_roots TInt app_leaf "timeout"
                  (Some "limit") [] eq_refl eq_refl)).
Defined.

(** A prefixed view of [app_leaf] has its name, hence its try number. *)
Lemma experiment_name_tells_tries_apart_witness :
  try_number app_leaf = try_number (get_with_prefix app_leaf "db").
Proof.
  apply (proj1 (experiment_name_tells_tries_apart app_leaf
                  (get_with_prefix app_leaf "db") "db")); reflexivity.
Defined.

(** A preset over [app_mid] (itself derived, named [mid]) with the
    delta [{a: 1, b: {c: "x"}}]. *)
Lemma generated_name_format_witness :
  let c := Dict [("a", i 1); ("b", Dict [("c", Leaf (PStr "x"))])] in
  let self := derived "" app_mid c in
  _generate_name self
  = Return ("mid: a: 1 - b/c: x",
            set_data_field (set_data_name "mid: a: 1 - b/c: x" (data self)) self).
Proof.
  intros c self.
  exact (generated_name_format self (mkConfigurationBlock c) eq_refl).
Defined.


(** [Preset({})] and [Preset({config: {}}, Preset())] *)
Lemma constructor_failures_witness :
  construct (mkRawData None None None None None) None = Raise (KeyError "config")
  ∧ construct (raw (Dict [])) (Some (blank None)) = Raise AttributeError.
Proof.
  split.
  - apply (proj1 (constructor_failures (mkRawData None None None None None)
                    None None "uuid" 0)). reflexivity.
  - apply (proj2 (constructor_failures (raw (Dict [])) (Some (blank None))
                    None "uuid" 0) (blank None) (Dict [])); reflexivity.
Defined.

(** [{a: {b: 1, c: 2}}] under the overlay [{a: {c: 3}, d: 4}] *)
Lemma deep_update_overlay_wins_witness :
  let d := Dict [("a", Dict [("b", i 1); ("c", i 2)])] in
  let u := Dict [("a", Dict [("c", i 3)]); ("d", i 4)] in
  ∃ r, _deep_update d u = Return r
       ∧ ∀ ks, leaf_at ks r =
                 match leaf_at ks u with
                 | Some v => Some v
                 | None => if shadowed ks u then None else leaf_at ks d
                 end.
Proof. intros d u. exact (deep_update_overlay_wins d u eq_refl eq_refl). Defined.

(** [app_leaf] over what [app_mid] composes to *)
Lemma compose_config_own_delta_wins_witness :
  let b := Dict [("db", Dict [("port", i 6000); ("host", Leaf (PStr "localhost"))]);
                 ("debug", Leaf (PBool false)); ("retries", i 0)] in
  let c := Dict [("debug", Leaf (PBool true))] in
  ∃ t, compose_config app_leaf = Return t
       ∧ ∀ ks, leaf_at ks t =
                 match leaf_at ks c with
                 | Some v => Some v
                 | None => if shadowed ks c then None else leaf_at ks b
                 end.
Proof.
  intros b c.
  exact (compose_config_own_delta_wins app_leaf app_mid b c
           eq_refl eq_refl eq_refl eq_refl eq_refl).
Defined.

(** A preset over a base that was made without data *)
Lemma compose_config_missing_config_witness :
  compose_config (derived "x" (blank None) (Dict [])) = Raise (KeyError "config").
Proof.
  apply (compose_config_missing_config _ (blank None)).
  - right. left.
  - reflexivity.
Defined.

(** Merging [{a: {c: 3}, d: 4}] into the result of merging it *)
Lemma deep_update_idempotent_witness :
  let u := Dict [("a", Dict [("c", i 3)]); ("d", i 4)] in
  let r := Dict [("a", Dict [("b", i 1); ("c", i 3)]); ("d", i 4)] in
  _deep_update r u = Return r.
Proof.
  intros u r.
  apply (deep_update_idempotent (Dict [("a", Dict [("b", i 1); ("c", i 2)])]) u r);
    reflexivity.
Defined.

(** The candidate [{a: {b: 1, c: 3}}] against the root
    [{a: {b: 1, c: 2}}] *)
Lemma diff_config_keeps_what_differs_witness :
  let b := Dict [("a", Dict [("b", i 1); ("c", i 2)])] in
  let items := [("a", Dict [("b", i 1); ("c", i 3)])] in
  ∃ c', diff_config (root b) (Dict items) = Return c'
        ∧ ∀ q v,
            dict_get q (flatten (mkConfigurationBlock c')) = Some v
            ↔ dict_get q (flatten (mkConfigurationBlock (Dict items))) = Some v
              ∧ redundant (flatten (mkConfigurationBlock b))
                  (flatten (mkConfigurationBlock (Dict items))) q = false.
Proof.
  intros b items.
  exact (diff_config_keeps_what_differs (root b) (mkConfigurationBlock b) items
           eq_refl eq_refl eq_refl).
Defined.


(** The candidate [{a: {b: {c: 1}}, d: 3}] against the root
    [{a: {b: {c: 1}}, d: 2}]: [a/b/c] goes, and so do [b] and [a]. *)
Lemma diff_config_leaves_no_empty_mapping_witness :
  let b := Dict [("a", Dict [("b", Dict [("c", i 1)])]); ("d", i 2)] in
  let items := [("a", Dict [("b", Dict [("c", i 1)])]); ("d", i 3)] in
  diff_config (root b) (Dict items) = Return (Dict [("d", i 3)])
  ∧ ∃ c', diff_config (root b) (Dict items) = Return c'
          ∧ no_empty_mapping c' = true.
Proof.
  intros b items. split; [reflexivity|].
  exact (diff_config_leaves_no_empty_mapping (root b) (mkConfigurationBlock b)
           items eq_refl eq_refl eq_refl eq_refl).
Defined.

End FurtherExamples.
